(** * Sentivox backend: reconciliation core

    A shallow embedding of the post-processing functions of the backend:

    - [server/services/flowGraph.ts]: [buildFlowGraph],
      [analyzeQuestionConnection], [detectMissedFollowUps] and
      [calculateLogicalScore];
    - the training recommendations generator (the module that follows
      [flowGraph.ts] in the same source file):
      [generateTrainingRecommendations];
    - the Gemini service (the TypeScript module that follows the README
      text): [aggregatePairSentiments] and [extractValidJson].

    Conventions of the embedding.

    - A JavaScript string is the list of its UTF-16 code units ([list N]).
    - A JavaScript number is an exact rational ([Q]); [Math.round] is
      [Qfloor (x + 1/2)].  Rounding error of binary64 arithmetic is not
      modelled.
    - A function that can throw returns an [outcome].
    - Built-ins that depend on tables outside the repository
      ([String.prototype.toLowerCase], [JSON.parse]) are Section variables;
      concrete instances are provided for evaluation on ASCII inputs. *)

From Stdlib Require Import QArith Qround Lia Lqa Ascii String.
From stdpp Require Import base list strings pretty numbers.

(** ** JavaScript strings *)

Module JsString.

Abbreviation jsstring := (list N).

(** Code units of an ASCII literal. *)
Definition js (s : string) : jsstring :=
  (fun a => N_of_ascii a) <$> list_ascii_of_string s.

(** Template-literal interpolation of an index: [`${i}`]. *)
Definition of_nat (i : nat) : jsstring := js (pretty i).

Definition LF : N := 10.
Definition CR : N := 13.
Definition DQUOTE : N := 34.
Definition BACKSLASH : N := 92.
Definition BACKTICK : N := 96.
Definition LBRACE : N := 123.
Definition RBRACE : N := 125.
Definition LBRACKET : N := 91.
Definition RBRACKET : N := 93.
Definition BOM : N := 65279.

(** ECMAScript [WhiteSpace] and [LineTerminator] code units: the class
    [\s] of regular expressions and what [trim] removes. *)
Definition is_space (c : N) : bool :=
  ((9 <=? c) && (c <=? 13) || (c =? 32) || (c =? 160) || (c =? 5760)
   || (8192 <=? c) && (c <=? 8202) || (c =? 8232) || (c =? 8233)
   || (c =? 8239) || (c =? 8287) || (c =? 12288) || (c =? 65279))%N.

(** ECMAScript [LineTerminator]: what [.] does not match. *)
Definition is_line_terminator (c : N) : bool :=
  ((c =? 10) || (c =? 13) || (c =? 8232) || (c =? 8233))%N.

Definition eqb (s t : jsstring) : bool := bool_decide (s = t).

(** [t.startsWith(p)] *)
Fixpoint starts_with (p t : jsstring) : bool :=
  match p, t with
  | [], _ => true
  | _ :: _, [] => false
  | a :: p', b :: t' => (a =? b)%N && starts_with p' t'
  end.

(** [s.includes(sub)] on strings. *)
Fixpoint includes (s sub : jsstring) : bool :=
  match s with
  | [] => starts_with sub []
  | _ :: s' => starts_with sub s || includes s' sub
  end.

(** [s.split(/\s+/)]: the pieces between maximal runs of white space;
    a leading or trailing run yields an empty first or last piece. *)
Fixpoint split_go (in_sep : bool) (cur : jsstring) (s : jsstring)
  : list jsstring :=
  match s with
  | [] => [reverse cur]
  | c :: s' =>
      if is_space c then
        if in_sep then split_go true cur s'
        else reverse cur :: split_go true [] s'
      else split_go false (c :: cur) s'
  end.

Definition split_ws (s : jsstring) : list jsstring := split_go false [] s.

(** [parts.join(sep)] *)
Fixpoint join (sep : jsstring) (parts : list jsstring) : jsstring :=
  match parts with
  | [] => []
  | [p] => p
  | p :: rest => p ++ sep ++ join sep rest
  end.

(** [s.trim()]: strips white space and line terminators at both ends. *)
Fixpoint trim_start (s : jsstring) : jsstring :=
  match s with
  | [] => []
  | c :: s' => if is_space c then trim_start s' else s
  end.

Definition trim_end (s : jsstring) : jsstring :=
  reverse (trim_start (reverse s)).

Definition trim (s : jsstring) : jsstring := trim_end (trim_start s).

(** [s.indexOf(c)] for a single code unit; [None] stands for [-1]. *)
Fixpoint index_of (c : N) (s : jsstring) : option nat :=
  match s with
  | [] => None
  | d :: s' => if (d =? c)%N then Some 0%nat else S <$> index_of c s'
  end.

(** ASCII instance of [toLowerCase]: exact on strings whose code units
    are all below 128. *)
Definition ascii_toLowerCase (s : jsstring) : jsstring :=
  (fun c => if ((65 <=? c) && (c <=? 90))%N then (c + 32)%N else c) <$> s.

End JsString.

Import JsString.

(** ** Results of code that can throw *)

Inductive JsError :=
| TypeError
| NoJsonFound          (* Error('No JSON object or array found in response') *)
| UnmatchedBrackets.   (* Error('Malformed JSON: unmatched brackets') *)

Inductive outcome (A : Type) :=
| Returned (a : A)
| Thrown (e : JsError).
Arguments Returned {A} a.
Arguments Thrown {A} e.

Definition bind {A B} (m : outcome A) (k : A -> outcome B) : outcome B :=
  match m with
  | Returned a => k a
  | Thrown e => Thrown e
  end.

(** A [for] loop over the indices [idxs] whose body may throw. *)
Fixpoint for_each {S} (body : S -> nat -> outcome S) (st : S) (idxs : list nat)
  : outcome S :=
  match idxs with
  | [] => Returned st
  | i :: rest => bind (body st i) (fun st' => for_each body st' rest)
  end.

(** ** JavaScript numbers *)

Definition Qltb (x y : Q) : bool := negb (Qle_bool y x).
Definition Qgtb (x y : Q) : bool := Qltb y x.
Definition Qgeb (x y : Q) : bool := Qle_bool y x.

(** [Math.round]: the nearest integer, halves rounded up. *)
Definition Math_round (x : Q) : Q := inject_Z (Qfloor (x + 0.5)).
Definition Math_min (x y : Q) : Q := if Qle_bool x y then x else y.
Definition Math_max (x y : Q) : Q := if Qle_bool x y then y else x.

(** [x || 0] on an optional number. *)
Definition or_zero (x : option Q) : Q := default 0%Q x.

(** ** server/services/flowGraph.ts *)

Module FlowGraph.

Inductive NodeType := question | answer.

Inductive EdgeType := direct_response | follow_up | topic_shift | disconnected.

Inductive Importance := high | medium | low.

Record FlowNode := {
  id : jsstring;
  type : NodeType;
  text : jsstring;
  timestamp : Q;
  speaker : jsstring }.

Record FlowEdge := {
  from : jsstring;
  to : jsstring;
  etype : EdgeType;
  strength : Q;
  logicalConnection : jsstring }.

Record MissedFollowUp := {
  afterNode : jsstring;
  suggestedQuestion : jsstring;
  importance : Importance;
  reasoning : jsstring }.

(** An element of the [questions] and [answers] arrays:
    [{ text: string; timestamp?: number; keySkills?: string[] }]. *)
Record Turn := {
  t_text : jsstring;
  t_timestamp : option Q;
  keySkills : option (list jsstring) }.

(** Result of [analyzeQuestionConnection]. *)
Record Connection := {
  c_type : EdgeType;
  c_strength : Q;
  c_reasoning : jsstring }.

#[global] Instance NodeType_eq_dec : EqDecision NodeType.
Proof. solve_decision. Defined.
#[global] Instance EdgeType_eq_dec : EqDecision EdgeType.
Proof. solve_decision. Defined.
#[global] Instance Importance_eq_dec : EqDecision Importance.
Proof. solve_decision. Defined.

(** [ts || dflt] on an optional number: [undefined] and [0] are falsy. *)
Definition or_default (ts : option Q) (dflt : Q) : Q :=
  match ts with
  | Some t => if Qeq_bool t 0 then dflt else t
  | None => dflt
  end.

Definition q_id (i : nat) : jsstring := js "q" ++ of_nat i.
Definition a_id (i : nat) : jsstring := js "a" ++ of_nat i.

Section WithLowerCase.

(** [String.prototype.toLowerCase]. *)
Variable toLowerCase : jsstring -> jsstring.

(** [prevWords.filter(w => nextWords.includes(w) && w.length > 4)] *)
Definition sharedKeywords (prevQ nextQ : jsstring) : list jsstring :=
  let prevWords := split_ws (toLowerCase prevQ) in
  let nextWords := split_ws (toLowerCase nextQ) in
  filter (fun w => bool_decide (w ∈ nextWords) && (4 <? length w)%nat = true)
         prevWords.

Definition analyzeQuestionConnection (prevQ nextQ : jsstring) : Connection :=
  let shared := sharedKeywords prevQ nextQ in
  if (2 <=? length shared)%nat then
    {| c_type := follow_up;
       c_strength := 0.8;
       c_reasoning := js "Follow-up on same topic ("
                      ++ join (js ", ") (take 2 shared) ++ js ")" |}
  else if (length shared =? 1)%nat then
    {| c_type := topic_shift;
       c_strength := 0.5;
       c_reasoning := js "Related but different topic" |}
  else
    {| c_type := disconnected;
       c_strength := 0.2;
       c_reasoning := js "No clear logical connection" |}.

(** Body of the first loop of [buildFlowGraph] at index [i]. *)
Definition node_step (questions answers : list Turn)
  (st : list FlowNode * list FlowEdge) (i : nat)
  : list FlowNode * list FlowEdge :=
  let '(nodes, edges) := st in
  match questions !! i with
  | None => st   (* not reached: i < questions.length *)
  | Some q =>
      let qNode := {| id := q_id i; type := question; text := t_text q;
                      timestamp := or_default (t_timestamp q) (inject_Z (Z.of_nat i) * 2);
                      speaker := js "recruiter" |} in
      let nodes := nodes ++ [qNode] in
      match answers !! i with
      | Some a =>
          let aNode := {| id := a_id i; type := answer; text := t_text a;
                          timestamp := or_default (t_timestamp a)
                                         (inject_Z (Z.of_nat i) * 2 + 1);
                          speaker := js "candidate" |} in
          (nodes ++ [aNode],
           edges ++ [{| from := id qNode; to := id aNode;
                        etype := direct_response; strength := 1.0;
                        logicalConnection := js "Direct response to question" |}])
      | None => (nodes, edges)
      end
  end.

(** Body of the second loop of [buildFlowGraph] at index [i]. *)
Definition continuity_step (questions : list Turn)
  (edges : list FlowEdge) (i : nat) : list FlowEdge :=
  match questions !! i, questions !! (i + 1)%nat with
  | Some currentQ, Some nextQ =>
      let connectionType :=
        analyzeQuestionConnection (t_text currentQ) (t_text nextQ) in
      edges ++ [{| from := a_id i; to := q_id (i + 1);
                   etype := c_type connectionType;
                   strength := c_strength connectionType;
                   logicalConnection := c_reasoning connectionType |}]
  | _, _ => edges   (* not reached: i + 1 < questions.length *)
  end.

Definition buildFlowGraph (questions answers : list Turn)
  : list FlowNode * list FlowEdge :=
  let '(nodes, edges) :=
    foldl (node_step questions answers) ([], []) (seq 0 (length questions)) in
  let edges :=
    foldl (continuity_step questions) edges (seq 0 (length questions - 1)) in
  (nodes, edges).

(** Body of the loop of [detectMissedFollowUps] at index [i]. *)
Definition missed_step (questions answers : list Turn) (edges : list FlowEdge)
  (missed : list MissedFollowUp) (i : nat) : outcome (list MissedFollowUp) :=
  match answers !! i with
  | None => Returned missed   (* not reached: i < answers.length - 1 *)
  | Some ans =>
      let nextQuestion := questions !! (i + 1)%nat in
      bind
        (* answer mentioned skills that were not followed up *)
        match keySkills ans with
        | Some ((skill0 :: _) as skills) =>
            match nextQuestion with
            | None => Thrown TypeError   (* nextQuestion.text on undefined *)
            | Some nq =>
                let wasFollowedUp :=
                  existsb (fun skill =>
                             includes (toLowerCase (t_text nq)) (toLowerCase skill))
                          skills in
                if wasFollowedUp then Returned missed
                else Returned (missed ++ [
                  {| afterNode := a_id i;
                     suggestedQuestion :=
                       js "Can you elaborate on your experience with "
                       ++ skill0 ++ js "?";
                     importance := high;
                     reasoning :=
                       js "Candidate mentioned " ++ join (js ", ") skills
                       ++ js " but recruiter didn't explore further" |}])
            end
        | _ => Returned missed
        end
        (fun missed =>
           (* disconnected edge (topic jump) *)
           match List.find (fun e => eqb (from e) (a_id i)
                                     && eqb (to e) (q_id (i + 1))) edges with
           | Some edge =>
               if bool_decide (etype edge = disconnected) then
                 Returned (missed ++ [
                   {| afterNode := a_id i;
                      suggestedQuestion := js "Can you tell me more about that?";
                      importance := medium;
                      reasoning :=
                        js "Recruiter changed topic without properly exploring the previous answer" |}])
               else Returned missed
           | None => Returned missed
           end)
  end.

Definition detectMissedFollowUps (questions answers : list Turn)
  (edges : list FlowEdge) : outcome (list MissedFollowUp) :=
  for_each (missed_step questions answers edges) []
           (seq 0 (length answers - 1)).

End WithLowerCase.

(** [edges.reduce((sum, e) => sum + e.strength, 0) / edges.length * 100] *)
Definition calculateLogicalScore (edges : list FlowEdge) : Q :=
  if (length edges =? 0)%nat then 0
  else (foldl (fun sum e => sum + strength e) 0 edges
        / inject_Z (Z.of_nat (length edges)) * 100)%Q.

(** Body of the loop of [identifyConversationBranches] at [node]. *)
Definition branch_step (edges : list FlowEdge)
  (st : list (list jsstring) * list jsstring) (node : FlowNode)
  : list (list jsstring) * list jsstring :=
  let '(branches, currentBranch) := st in
  let '(branches, currentBranch) :=
    if bool_decide (type node = question) then
      (* topic shift on the first edge that enters the node *)
      match List.find (fun e => eqb (to e) (id node)) edges with
      | Some incomingEdge =>
          if bool_decide (etype incomingEdge = topic_shift)
             && (0 <? length currentBranch)%nat
          then (branches ++ [currentBranch], [])
          else (branches, currentBranch)
      | None => (branches, currentBranch)
      end
    else (branches, currentBranch) in
  (branches, currentBranch ++ [id node]).

Definition identifyConversationBranches (nodes : list FlowNode)
  (edges : list FlowEdge) : list (list jsstring) :=
  let '(branches, currentBranch) := foldl (branch_step edges) ([], []) nodes in
  if (0 <? length currentBranch)%nat then branches ++ [currentBranch]
  else branches.

End FlowGraph.

(** ** Training recommendations generator *)

Module Training.

Inductive Priority := critical | high | medium | low.
Inductive Severity := sev_critical | moderate | minor.
Inductive Rating := excellent | good | needs_improvement | poor.

Record TrainingRecommendation := {
  area : jsstring;
  priority : Priority;
  issue : jsstring;
  recommendation : jsstring;
  resources : list jsstring;
  expectedImprovement : jsstring }.

Record PerformanceGap := {
  metric : jsstring;
  currentScore : Q;
  targetScore : Q;
  gap : Q;
  severity : Severity }.

(** What the function reads of its four [any] arguments:
    [jdAnalysis?.overallScore], [flowAnalysis?.continuityScore],
    [sentimentAnalysis?.recruiterSentiment?.overallScore] and
    [missedFollowUps?.length]; [None] is [undefined]. *)
Record Inputs := {
  jd_overallScore : option Q;
  flow_continuityScore : option Q;
  recruiter_overallScore : option Q;
  missed_length : option nat }.

Record Output := {
  recommendations : list TrainingRecommendation;
  performanceGaps : list PerformanceGap;
  strengthAreas : list jsstring;
  overallRating : Rating }.

Definition jd_section (inp : Inputs)
  : list TrainingRecommendation * list PerformanceGap * list jsstring :=
  match jd_overallScore inp with
  | Some score =>
      if Qltb score 60 then
        ([{| area := js "Job Description Alignment";
             priority := if Qltb score 40 then critical else high;
             issue := js "Questions are not well-aligned with job requirements";
             recommendation := js "Study the job description thoroughly before interviews and prepare targeted questions for each requirement";
             resources := [js "JD Analysis Training Module";
                           js "Competency-Based Interviewing Guide";
                           js "Technical Skills Assessment Framework"];
             expectedImprovement := js "Increase JD relevance score by 20-30 points" |}],
         [{| metric := js "JD Relevance";
             currentScore := score;
             targetScore := 80;
             gap := 80 - score;
             severity := if Qltb score 40 then sev_critical else moderate |}],
         [])
      else if Qgeb score 80 then
        ([], [], [js "Strong job description alignment"])
      else ([], [], [])
  | None => ([], [], [])
  end.

Definition flow_section (inp : Inputs)
  : list TrainingRecommendation * list PerformanceGap * list jsstring :=
  match flow_continuityScore inp with
  | Some score =>
      if Qltb score 70 then
        ([{| area := js "Conversation Flow";
             priority := if Qltb score 50 then critical else high;
             issue := js "Questions lack logical flow and follow-up";
             recommendation := js "Practice active listening and ask follow-up questions based on candidate responses. Build a narrative thread throughout the interview";
             resources := [js "Active Listening Techniques";
                           js "Follow-up Question Framework";
                           js "Interview Flow Best Practices"];
             expectedImprovement := js "Improve flow continuity by 15-20 points" |}],
         [{| metric := js "Flow Continuity";
             currentScore := score;
             targetScore := 85;
             gap := 85 - score;
             severity := if Qltb score 50 then sev_critical else moderate |}],
         [])
      else if Qgeb score 85 then
        ([], [], [js "Excellent conversation flow and continuity"])
      else ([], [], [])
  | None => ([], [], [])
  end.

Definition missed_section (inp : Inputs) : list TrainingRecommendation :=
  match missed_length inp with
  | Some n =>
      if (3 <? n)%nat then
        [{| area := js "Follow-up Questions";
            priority := if (5 <? n)%nat then high else medium;
            issue := js "Missed " ++ of_nat n ++ js " follow-up opportunities";
            recommendation := js "Take notes during candidate responses and identify key points to explore further. Don't move to the next question too quickly";
            resources := [js "Deep Dive Questioning Techniques";
                          js "STAR Method Interview Guide";
                          js "Probing Questions Checklist"];
            expectedImprovement := js "Reduce missed follow-ups by 50%" |}]
      else []
  | None => []
  end.

Definition sentiment_section (inp : Inputs) : list TrainingRecommendation :=
  match recruiter_overallScore inp with
  | Some s =>
      let recruiterScore := (s * 10)%Q in
      if Qltb recruiterScore 60 then
        [{| area := js "Interview Tone";
            priority := medium;
            issue := js "Recruiter tone could be more positive and engaging";
            recommendation := js "Practice maintaining an enthusiastic and welcoming demeanor. Show genuine interest in candidate responses";
            resources := [js "Positive Interview Techniques";
                          js "Building Rapport with Candidates";
                          js "Non-verbal Communication in Interviews"];
            expectedImprovement := js "Increase candidate comfort and engagement" |}]
      else []
  | None => []
  end.

Definition generateTrainingRecommendations (inp : Inputs) : Output :=
  let '(recs1, gaps1, strengths1) := jd_section inp in
  let '(recs2, gaps2, strengths2) := flow_section inp in
  let avgScore :=
    ((0 + or_zero (jd_overallScore inp) + or_zero (flow_continuityScore inp)
      + or_zero (recruiter_overallScore inp) * 10) / 3)%Q in
  {| recommendations := recs1 ++ recs2 ++ missed_section inp ++ sentiment_section inp;
     performanceGaps := gaps1 ++ gaps2;
     strengthAreas := strengths1 ++ strengths2;
     overallRating :=
       if Qgeb avgScore 85 then excellent
       else if Qgeb avgScore 70 then good
       else if Qgeb avgScore 50 then needs_improvement
       else poor |}.

End Training.

(** ** Gemini service: sentiment aggregation *)

Module Sentiment.

Record SentimentJudgment := {
  positive : Q;
  neutral : Q;
  negative : Q;
  overallScore : Q;
  reasoning : jsstring }.

Record PairAnalysis := {
  pa_recruiterSentiment : SentimentJudgment;
  pa_candidateSentiment : SentimentJudgment }.

Record SentimentResult := {
  recruiterSentiment : SentimentJudgment;
  candidateSentiment : SentimentJudgment }.

(** [reduce((sum, s) => sum + f(s), 0)] *)
Definition sum_of (f : SentimentJudgment -> Q) (sentiments : list SentimentJudgment) : Q :=
  foldl (fun sum s => (sum + f s)%Q) 0%Q sentiments.

(** [s.split('.')[0]] *)
Fixpoint before_first_dot (s : jsstring) : jsstring :=
  match s with
  | [] => []
  | c :: s' => if (c =? 46)%N then [] else c :: before_first_dot s'
  end.

Definition hasStrongPositive (sentiments : list SentimentJudgment) : bool :=
  existsb (fun s => Qgtb (positive s) 0.5 || Qgtb (overallScore s) 7) sentiments.

Definition hasStrongNegative (sentiments : list SentimentJudgment) : bool :=
  existsb (fun s => Qgtb (negative s) 0.4 || Qltb (overallScore s) 4) sentiments.

(** The closure [aggregateRole], applied to [pairAnalyses.map(p => p[role])]. *)
Definition aggregateRole (sentiments : list SentimentJudgment) : SentimentJudgment :=
  let count := inject_Z (Z.of_nat (length sentiments)) in
  let avgPositive := (sum_of positive sentiments / count)%Q in
  let avgNeutral := (sum_of neutral sentiments / count)%Q in
  let avgNegative := (sum_of negative sentiments / count)%Q in
  let avgScore := (sum_of overallScore sentiments / count)%Q in
  let strongPos := hasStrongPositive sentiments in
  let strongNeg := hasStrongNegative sentiments in
  let '(finalPositive, finalNeutral, finalNegative, finalScore) :=
    if strongPos && negb strongNeg then
      (Math_min 1 (avgPositive * 1.2), Math_max 0 (avgNeutral * 0.9), avgNegative,
       Math_min 10 (Math_round (avgScore + 0.5)))
    else if strongNeg && negb strongPos then
      (avgPositive, Math_max 0 (avgNeutral * 0.9), Math_min 1 (avgNegative * 1.2),
       Math_max 1 (Math_round (avgScore - 0.5)))
    else (avgPositive, avgNeutral, avgNegative, Math_round avgScore) in
  let total := (finalPositive + finalNeutral + finalNegative)%Q in
  let '(finalPositive, finalNeutral, finalNegative) :=
    if Qgtb total 0 then
      ((finalPositive / total)%Q, (finalNeutral / total)%Q, (finalNegative / total)%Q)
    else (finalPositive, finalNeutral, finalNegative) in
  {| positive := finalPositive;
     neutral := finalNeutral;
     negative := finalNegative;
     overallScore := finalScore;
     reasoning :=
       js "Intelligent aggregation from " ++ of_nat (length sentiments)
       ++ js " exchanges"
       ++ (if strongPos then js " (detected positive signals)" else [])
       ++ (if strongNeg then js " (detected negative signals)" else [])
       ++ js ". Key insights: "
       ++ join (js "; ")
            ((fun s => before_first_dot (reasoning s)) <$> take 2 sentiments) |}.

Definition baseline : SentimentJudgment :=
  {| positive := 0.2; neutral := 0.8; negative := 0; overallScore := 5;
     reasoning := js "No Q&A pairs available - assuming professional baseline" |}.

Definition aggregatePairSentiments (pairAnalyses : list PairAnalysis)
  : SentimentResult :=
  if (length pairAnalyses =? 0)%nat then
    {| recruiterSentiment := baseline; candidateSentiment := baseline |}
  else
    {| recruiterSentiment := aggregateRole (pa_recruiterSentiment <$> pairAnalyses);
       candidateSentiment := aggregateRole (pa_candidateSentiment <$> pairAnalyses) |}.

(** A sentiment object as parsed from the model response: any field may
    be missing ([None] is [undefined]). *)
Record RawSentiment := {
  r_positive : option Q;
  r_neutral : option Q;
  r_negative : option Q;
  r_overallScore : option Q;
  r_reasoning : option jsstring }.

(** [s || dflt] on an optional string: [undefined] and the empty string are
    falsy. *)
Definition str_or_default (s : option jsstring) (dflt : jsstring) : jsstring :=
  match s with
  | Some (c :: r) => c :: r
  | _ => dflt
  end.

(** The closure [normalize] of [analyzeQAPairSentiment]; [analyzeSingleSentiment]
    applies the same expressions to its parsed result. *)
Definition normalize (sentiment : RawSentiment) : SentimentJudgment :=
  {| positive := Math_max 0 (Math_min 1 (FlowGraph.or_default (r_positive sentiment) 0));
     neutral := Math_max 0 (Math_min 1 (FlowGraph.or_default (r_neutral sentiment) 0));
     negative := Math_max 0 (Math_min 1 (FlowGraph.or_default (r_negative sentiment) 0));
     overallScore :=
       Math_max 1 (Math_min 10 (FlowGraph.or_default (r_overallScore sentiment) 5));
     reasoning := str_or_default (r_reasoning sentiment) (js "No reasoning provided") |}.



End Sentiment.

(** ** Gemini service: question-answer pairs *)

Module Pairs.

(** A transcript segment: [{speaker: string, text: string}]. *)
Record Segment := {
  speaker : jsstring;
  text : jsstring }.

Record QAPair := {
  question : jsstring;
  answer : jsstring;
  questionSpeaker : jsstring;
  answerSpeaker : jsstring }.

Section WithLowerCase.

(** [String.prototype.toLowerCase]. *)
Variable toLowerCase : jsstring -> jsstring.

(** The condition under which a segment counts as a question. *)
Definition looks_like_question (t : jsstring) : bool :=
  includes t (js "?")
  || includes (toLowerCase t) (js "tell me")
  || includes (toLowerCase t) (js "what")
  || includes (toLowerCase t) (js "how")
  || includes (toLowerCase t) (js "why")
  || includes (toLowerCase t) (js "describe")
  || includes (toLowerCase t) (js "explain").

(** Body of the loop of [extractQuestionAnswerPairs] at index [i]. *)
Definition pair_step (segments : list Segment) (pairs : list QAPair) (i : nat)
  : list QAPair :=
  match segments !! i, segments !! (i + 1)%nat with
  | Some current, Some next =>
      if negb (eqb (speaker current) (speaker next))
         && looks_like_question (text current)
      then pairs ++ [{| question := text current; answer := text next;
                        questionSpeaker := speaker current;
                        answerSpeaker := speaker next |}]
      else pairs
  | _, _ => pairs   (* not reached: i + 1 < segments.length *)
  end.

Definition extractQuestionAnswerPairs (segments : list Segment) : list QAPair :=
  foldl (pair_step segments) [] (seq 0 (length segments - 1)).

End WithLowerCase.

End Pairs.

(** ** Gemini service: extraction of a JSON value from a model response *)

Module Extract.

(** [s.replace(re, '')] with the [g] flag, for a pattern that never matches
    the empty string: [matcher t] is the length of the match of the pattern
    at the head of [t], if there is one.  [skip] counts the code units of
    the current match that are still to be dropped. *)
Fixpoint replace_all (matcher : jsstring -> option nat) (skip : nat)
  (s : jsstring) : jsstring :=
  match s with
  | [] => []
  | c :: s' =>
      match skip with
      | S k => replace_all matcher k s'
      | O =>
          match matcher s with
          | Some (S k) => replace_all matcher k s'
          | _ => c :: replace_all matcher 0 s'
          end
      end
  end.

(** [\s*] (greedy): number of leading white-space code units. *)
Fixpoint spaces_len (s : jsstring) : nat :=
  match s with
  | c :: s' => if is_space c then S (spaces_len s') else 0
  | [] => 0
  end.

(** [.*?\n] (lazy): length up to and including the first line feed, when no
    other line terminator comes before it. *)
Fixpoint to_newline_len (s : jsstring) : option nat :=
  match s with
  | [] => None
  | c :: s' =>
      if (c =? LF)%N then Some 1%nat
      else if is_line_terminator c then None
      else S <$> to_newline_len s'
  end.

Definition fence : jsstring := [BACKTICK; BACKTICK; BACKTICK].

(** The pattern [```\s*(?:json|JSON).*?\n] at the head of [s]. *)
Definition match_fence_open (s : jsstring) : option nat :=
  if starts_with fence s then
    let s1 := drop 3 s in
    let n := spaces_len s1 in
    let s2 := drop n s1 in
    if starts_with (js "json") s2 || starts_with (js "JSON") s2 then
      (fun m => 3 + n + 4 + m)%nat <$> to_newline_len (drop 4 s2)
    else None
  else None.

(** The pattern [```] at the head of [s]. *)
Definition match_fence (s : jsstring) : option nat :=
  if starts_with fence s then Some 3%nat else None.

(** [cleaned.replace(/```\s*(?:json|JSON).*?\n/g, '').replace(/```/g, '')] *)
Definition strip_fences (s : jsstring) : jsstring :=
  replace_all match_fence 0 (replace_all match_fence_open 0 s).

(** [text.replace(/^\uFEFF/, '')] *)
Definition strip_bom (s : jsstring) : jsstring :=
  match s with
  | c :: s' => if (c =? BOM)%N then s' else s
  | [] => []
  end.

(** [Math.min(indexOf('{') or Infinity, indexOf('[') or Infinity)];
    [None] is [Infinity]. *)
Definition jsonStart (cleaned : jsstring) : option nat :=
  match index_of LBRACE cleaned, index_of LBRACKET cleaned with
  | Some a, Some b => Some (a `min` b)
  | Some a, None => Some a
  | None, Some b => Some b
  | None, None => None
  end.

(** The scanning loop, from index [i] with [s] the code units from [i] on:
    the index at which it returns, or [None] when the loop runs to the end. *)
Fixpoint scan (startChar endChar : N) (depth : Z) (inString escaped : bool)
  (i : nat) (s : jsstring) : option nat :=
  match s with
  | [] => None
  | char :: s' =>
      if escaped then scan startChar endChar depth inString false (S i) s'
      else if (char =? BACKSLASH)%N then
        scan startChar endChar depth inString true (S i) s'
      else if (char =? DQUOTE)%N then
        scan startChar endChar depth (negb inString) false (S i) s'
      else if inString then
        scan startChar endChar depth inString false (S i) s'
      else if (char =? startChar)%N then
        scan startChar endChar (depth + 1) inString false (S i) s'
      else if (char =? endChar)%N then
        let depth := (depth - 1)%Z in
        if (depth =? 0)%Z then Some i
        else scan startChar endChar depth inString false (S i) s'
      else scan startChar endChar depth inString false (S i) s'
  end.

(** [s.substring(a, b)] for [a <= b]. *)
Definition substring (s : jsstring) (a b : nat) : jsstring :=
  take (b - a) (drop a s).

Section WithJsonParse.

(** Whether [JSON.parse] returns (rather than throws) on its argument. *)
Variable JSON_parse_ok : jsstring -> bool.

Definition extractValidJson (text : jsstring) : outcome jsstring :=
  let cleaned := trim (strip_bom text) in
  if JSON_parse_ok cleaned then Returned cleaned
  else
    let cleaned := strip_fences cleaned in
    if JSON_parse_ok (trim cleaned) then Returned (trim cleaned)
    else
      match jsonStart cleaned with
      | None => Thrown NoJsonFound
      | Some start =>
          let startChar := nth start cleaned 0%N in
          let endChar := if (startChar =? LBRACE)%N then RBRACE else RBRACKET in
          match scan startChar endChar 0 false false start (drop start cleaned) with
          | Some i => Returned (substring cleaned start (i + 1))
          | None => Thrown UnmatchedBrackets
          end
      end.

End WithJsonParse.

End Extract.

(** ** The JSON grammar

    [JSON.parse] is an ECMAScript built-in, not code of the repository.  The
    recogniser below follows the JSON grammar (ECMA-404) that the built-in
    accepts.  It defines what a well-formed literal is, and it instantiates
    [JSON_parse_ok] on concrete inputs. *)

Module Json.

Definition is_json_ws (c : N) : bool :=
  ((c =? 9) || (c =? 10) || (c =? 13) || (c =? 32))%N.

Fixpoint skip_ws (s : jsstring) : jsstring :=
  match s with
  | c :: s' => if is_json_ws c then skip_ws s' else s
  | [] => []
  end.

Definition is_digit (c : N) : bool := ((48 <=? c) && (c <=? 57))%N.

Definition is_hex (c : N) : bool :=
  (is_digit c || (65 <=? c) && (c <=? 70) || (97 <=? c) && (c <=? 102))%N.

(** One of the characters that may follow a backslash, [u] apart. *)
Definition is_simple_escape (c : N) : bool :=
  ((c =? 34) || (c =? 92) || (c =? 47) || (c =? 98) || (c =? 102)
   || (c =? 110) || (c =? 114) || (c =? 116))%N.

Definition hex4 (s : jsstring) : bool :=
  match s with
  | a :: b :: c :: d :: _ => is_hex a && is_hex b && is_hex c && is_hex d
  | _ => false
  end.

(** The characters of a string after its opening quote, closing quote
    included: the rest of the input after the closing quote. *)
Fixpoint string_tail (s : jsstring) : option jsstring :=
  match s with
  | [] => None
  | c :: s' =>
      if (c =? DQUOTE)%N then Some s'
      else if (c =? BACKSLASH)%N then
        match s' with
        | e :: s'' =>
            if is_simple_escape e then string_tail s''
            else if (e =? 117)%N && hex4 s'' then string_tail s''
            else None
        | [] => None
        end
      else if (c <? 32)%N then None
      else string_tail s'
  end.

Fixpoint digits (s : jsstring) : jsstring :=
  match s with
  | c :: s' => if is_digit c then digits s' else s
  | [] => []
  end.

(** One or more digits. *)
Definition digits1 (s : jsstring) : option jsstring :=
  match s with
  | c :: s' => if is_digit c then Some (digits s') else None
  | [] => None
  end.

(** An optional minus sign. *)
Definition opt_minus (s : jsstring) : jsstring :=
  match s with
  | c :: s' => if (c =? 45)%N then s' else s
  | [] => s
  end.

(** [0], or a non-zero digit followed by digits. *)
Definition int_part (s : jsstring) : option jsstring :=
  match s with
  | c :: s' => if (c =? 48)%N then Some s'
               else if is_digit c then Some (digits s') else None
  | [] => None
  end.

(** An optional fraction: a dot and one or more digits. *)
Definition frac_part (s : jsstring) : option jsstring :=
  match s with
  | c :: s' => if (c =? 46)%N then digits1 s' else Some s
  | [] => Some s
  end.

(** An optional exponent: [e] or [E], an optional sign, one or more digits. *)
Definition exp_part (s : jsstring) : option jsstring :=
  match s with
  | c :: s' =>
      if (c =? 101)%N || (c =? 69)%N then
        match s' with
        | g :: s'' =>
            if (g =? 43)%N || (g =? 45)%N then digits1 s'' else digits1 s'
        | [] => None
        end
      else Some s
  | [] => Some s
  end.

Definition number (s : jsstring) : option jsstring :=
  match int_part (opt_minus s) with
  | Some s1 =>
      match frac_part s1 with
      | Some s2 => exp_part s2
      | None => None
      end
  | None => None
  end.

Inductive mode := MValue | MMembers | MElements.

(** Recursive descent.  [parse fuel m s] consumes from [s]
    - in mode [MValue], one value;
    - in mode [MMembers], the members of an object and its closing brace;
    - in mode [MElements], the elements of an array and its closing bracket;
    and returns the rest of the input. *)
Fixpoint parse (fuel : nat) (m : mode) (s : jsstring) : option jsstring :=
  match fuel with
  | O => None
  | S fuel =>
      match m with
      | MValue =>
          match s with
          | [] => None
          | c :: s' =>
              if (c =? LBRACE)%N then
                match skip_ws s' with
                | d :: r => if (d =? RBRACE)%N then Some r
                            else parse fuel MMembers (d :: r)
                | [] => None
                end
              else if (c =? LBRACKET)%N then
                match skip_ws s' with
                | d :: r => if (d =? RBRACKET)%N then Some r
                            else parse fuel MElements (d :: r)
                | [] => None
                end
              else if (c =? DQUOTE)%N then string_tail s'
              else if starts_with (js "true") s then Some (drop 4 s)
              else if starts_with (js "false") s then Some (drop 5 s)
              else if starts_with (js "null") s then Some (drop 4 s)
              else number s
          end
      | MMembers =>
          match s with
          | c :: s' =>
              if (c =? DQUOTE)%N then
                match string_tail s' with
                | Some s1 =>
                    match skip_ws s1 with
                    | d :: s2 =>
                        if (d =? 58)%N then
                          match parse fuel MValue (skip_ws s2) with
                          | Some s3 =>
                              match skip_ws s3 with
                              | e :: s4 =>
                                  if (e =? 44)%N then
                                    parse fuel MMembers (skip_ws s4)
                                  else if (e =? RBRACE)%N then Some s4
                                  else None
                              | [] => None
                              end
                          | None => None
                          end
                        else None
                    | [] => None
                    end
                | None => None
                end
              else None
          | [] => None
          end
      | MElements =>
          match parse fuel MValue s with
          | Some s1 =>
              match skip_ws s1 with
              | e :: s2 =>
                  if (e =? 44)%N then parse fuel MElements (skip_ws s2)
                  else if (e =? RBRACKET)%N then Some s2
                  else None
              | [] => None
              end
          | None => None
          end
      end
  end.

Definition fuel_for (s : jsstring) : nat := 2 * length s + 4.

(** A JSON text: one value, white space allowed around it. *)
Definition json_text (s : jsstring) : bool :=
  match parse (fuel_for s) MValue (skip_ws s) with
  | Some rest => bool_decide (skip_ws rest = [])
  | None => false
  end.

(** A well-formed object or array literal: a JSON value that starts with a
    brace or a bracket and spans the whole of [s]. *)
Definition json_literal (s : jsstring) : bool :=
  match s with
  | c :: _ =>
      ((c =? LBRACE)%N || (c =? LBRACKET)%N)
      && bool_decide (parse (fuel_for s) MValue s = Some [])
  | [] => false
  end.

End Json.

(** ** Derived notions used in the statements *)

Module FlowSpec.
Import FlowGraph.

(** Text of the [i]-th element of an array of turns. *)
Definition text_at (turns : list Turn) (i : nat) : jsstring :=
  default [] (t_text <$> turns !! i).

(** The direct_response edge of exchange [i]. *)
Definition direct_edge (i : nat) : FlowEdge :=
  {| from := q_id i; to := a_id i; etype := direct_response; strength := 1.0;
     logicalConnection := js "Direct response to question" |}.

(** The continuity edge from answer [i] to question [i + 1]. *)
Definition continuity_edge (toLowerCase : jsstring -> jsstring)
  (questions : list Turn) (i : nat) : FlowEdge :=
  let c := analyzeQuestionConnection toLowerCase
             (text_at questions i) (text_at questions (i + 1)) in
  {| from := a_id i; to := q_id (i + 1); etype := c_type c;
     strength := c_strength c; logicalConnection := c_reasoning c |}.

Definition is_direct (e : FlowEdge) : bool :=
  bool_decide (etype e = direct_response).

Definition direct_edges (edges : list FlowEdge) : list FlowEdge :=
  List.filter is_direct edges.

Definition continuity_edges (edges : list FlowEdge) : list FlowEdge :=
  List.filter (fun e => negb (is_direct e)) edges.

(** Number of tokens of the earlier question that are longer than four
    code units and occur among the tokens of the later question. *)
Fixpoint count_shared_long (prevWords nextWords : list jsstring) : nat :=
  match prevWords with
  | [] => 0
  | w :: rest =>
      (if decide (4 < length w /\ w ∈ nextWords) then 1 else 0)
      + count_shared_long rest nextWords
  end.

Definition shared_long_tokens (toLowerCase : jsstring -> jsstring)
  (prevQ nextQ : jsstring) : nat :=
  count_shared_long (split_ws (toLowerCase prevQ)) (split_ws (toLowerCase nextQ)).

(** The end-to-end scenario of the specification. *)
Definition mk_turn (s : string) : Turn :=
  {| t_text := js s; t_timestamp := None; keySkills := None |}.

Definition scenario_questions : list Turn :=
  [mk_turn "What is your experience with Java?";
   mk_turn "Describe your experience with Spring Boot projects?"].

Definition scenario_answers : list Turn :=
  [mk_turn "I have 7 years of Java experience";
   mk_turn "I led three Spring Boot microservices"].

(** The scenario yields exactly one continuity edge, of kind [ty] and
    strength [s], and the score of that edge alone is [score]. *)
Definition scenario_outcome (ty : EdgeType) (s score : Q) : Prop :=
  exists e,
    continuity_edges
      (buildFlowGraph ascii_toLowerCase scenario_questions scenario_answers).2 = [e]
    /\ from e = a_id 0 /\ to e = q_id 1
    /\ etype e = ty /\ strength e == s /\ calculateLogicalScore [e] == score.

(** The record of the untouched-tag rule at answer [i]. *)
Definition tag_record (i : nat) (skill0 : jsstring) (skills : list jsstring)
  : MissedFollowUp :=
  {| afterNode := a_id i;
     suggestedQuestion :=
       js "Can you elaborate on your experience with " ++ skill0 ++ js "?";
     importance := high;
     reasoning := js "Candidate mentioned " ++ join (js ", ") skills
                  ++ js " but recruiter didn't explore further" |}.

(** The record of the disconnected-edge rule at answer [i]. *)
Definition edge_record (i : nat) : MissedFollowUp :=
  {| afterNode := a_id i;
     suggestedQuestion := js "Can you tell me more about that?";
     importance := medium;
     reasoning :=
       js "Recruiter changed topic without properly exploring the previous answer" |}.

(** Untouched-tag rule at answer [i]: the answer carries a tag and no tag
    occurs, ignoring case, in the text of question [i + 1]. *)
Definition tag_rule (toLowerCase : jsstring -> jsstring)
  (questions answers : list Turn) (i : nat) : list MissedFollowUp :=
  match answers !! i with
  | Some a =>
      match keySkills a with
      | Some (skill0 :: rest) =>
          if existsb (fun skill => includes (toLowerCase (text_at questions (i + 1)))
                                            (toLowerCase skill))
                     (skill0 :: rest)
          then []
          else [tag_record i skill0 (skill0 :: rest)]
      | _ => []
      end
  | None => []
  end.

(** Disconnected-edge rule at answer [i]: the first edge from a<i> to
    q<i+1> is classified disconnected. *)
Definition edge_rule (edges : list FlowEdge) (i : nat) : list MissedFollowUp :=
  match List.find (fun e => eqb (from e) (a_id i) && eqb (to e) (q_id (i + 1)))
                  edges with
  | Some e => if bool_decide (etype e = disconnected) then [edge_record i] else []
  | None => []
  end.

(** The records emitted for answer [i]. *)
Definition records_at (missed : list MissedFollowUp) (i : nat)
  : list MissedFollowUp :=
  List.filter (fun m => eqb (afterNode m) (a_id i)) missed.

(** An input on which both rules fire at index 0. *)
Definition both_questions : list Turn :=
  [mk_turn "Tell me about your background";
   mk_turn "What are your salary expectations?"].

Definition both_answers : list Turn :=
  [{| t_text := js "I run Kubernetes clusters in production";
      t_timestamp := None; keySkills := Some [js "Kubernetes"] |};
   mk_turn "Something competitive"].

Definition both_edges : list FlowEdge :=
  (buildFlowGraph ascii_toLowerCase both_questions both_answers).2.

End FlowSpec.

Module ExtractSpec.
Import Extract Json.

Definition is_opener (c : N) : bool := ((c =? LBRACE) || (c =? LBRACKET))%N.

Definition no_opener (s : jsstring) : bool := forallb (fun c => negb (is_opener c)) s.

(** The closing delimiter that the scan pairs with the opener [sc]. *)
Definition closer_of (sc : N) : N :=
  if (sc =? LBRACE)%N then RBRACE else RBRACKET.

(** State of the scan: nesting depth, inside a string literal, after a
    backslash. *)
Definition scan_state : Type := Z * bool * bool.

(** Effect of one code unit on the state of the scan. *)
Definition step (sc ec : N) (st : scan_state) (c : N) : scan_state :=
  let '(depth, inString, escaped) := st in
  if escaped then (depth, inString, false)
  else if (c =? BACKSLASH)%N then (depth, inString, true)
  else if (c =? DQUOTE)%N then (depth, negb inString, false)
  else if inString then (depth, inString, false)
  else if (c =? sc)%N then ((depth + 1)%Z, inString, false)
  else if (c =? ec)%N then ((depth - 1)%Z, inString, false)
  else (depth, inString, false).

(** Nesting depth of the delimiters of the kind of [sc] after the code
    units [s], string literals and escapes honoured. *)
Definition depth_after (sc : N) (s : jsstring) : Z :=
  (foldl (step sc (closer_of sc)) (0%Z, false, false) s).1.1.

(** The nesting depth is non-zero after every non-empty prefix of [s]. *)
Definition never_zero (sc : N) (s : jsstring) : bool :=
  forallb (fun k => negb (depth_after sc (take k s) =? 0)%Z) (seq 1 (length s)).

(** The two pairs of delimiters that the scan may track. *)
Definition delims (sc ec : N) : Prop :=
  (sc = LBRACE /\ ec = RBRACE) \/ (sc = LBRACKET /\ ec = RBRACKET).

(** A code unit that the scan ignores outside string literals. *)
Definition is_plain (c : N) : bool :=
  negb ((c =? BACKSLASH) || (c =? DQUOTE) || is_opener c
        || (c =? RBRACE) || (c =? RBRACKET))%N.

(** The scan, outside a string literal and at depth at least 1, runs over
    [v] and is in the same state after it. *)
Definition passes (v : jsstring) : Prop :=
  forall sc ec d i r, delims sc ec -> (1 <= d)%Z ->
    scan sc ec d false false i (v ++ r)
    = scan sc ec d false false (i + length v) r.

(** [s] is [v ++ rest] for some [v] that the scan passes. *)
Definition seg (s rest : jsstring) : Prop :=
  exists v, s = v ++ rest /\ passes v.

(** What a successful [parse] in mode [m] says about the consumed text. *)
Definition sound (m : mode) (s rest : jsstring) : Prop :=
  match m with
  | MValue =>
      seg s rest
      /\ (forall c s', s = c :: s' -> is_opener c = true ->
            seg s' (closer_of c :: rest))
  | MMembers => seg s (RBRACE :: rest)
  | MElements => seg s (RBRACKET :: rest)
  end.

Definition no_backtick (s : jsstring) : bool :=
  forallb (fun c => negb (c =? BACKTICK)%N) s.

(** A matcher that only matches where the text starts with a fence. *)
Definition fence_led (m : jsstring -> option nat) : Prop :=
  forall s, starts_with fence s = false -> m s = None.

(** A string literal with the characters of [s]. *)
Definition quoted (s : string) : jsstring := [DQUOTE] ++ js s ++ [DQUOTE].




(** A literal with delimiters inside strings: [{"a}":[1,{"b":"]{"}]}]. *)
Definition literal_with_delimiters : jsstring :=
  js "{" ++ quoted "a}" ++ js ":[1,{" ++ quoted "b" ++ js ":" ++ quoted "]{"
  ++ js "}]}".

Definition prose_before : jsstring := js "Here is the analysis you asked for:" ++ [LF].

(** A garbled response whose brace is never closed: [[1, {"a": 2]]. *)
Definition mixed_delimiters_response : jsstring :=
  js "[1, {" ++ quoted "a" ++ js ": 2]".

(** A response cut off after the opening line of a fence. *)
Definition cut_off_response : jsstring :=
  fence ++ js "json {" ++ [LF] ++ js "abc".

End ExtractSpec.

Module SentimentSpec.
Import Sentiment.

(** Sum of a list of numbers. *)
Fixpoint Qsum (l : list Q) : Q :=
  match l with
  | [] => 0
  | x :: l' => x + Qsum l'
  end.

(** Unweighted arithmetic mean of [f] over the samples. *)
Definition mean (f : SentimentJudgment -> Q) (sentiments : list SentimentJudgment) : Q :=
  Qsum (f <$> sentiments) / inject_Z (Z.of_nat (length sentiments)).






Definition judgment (p n g score : Q) : SentimentJudgment :=
  {| positive := p; neutral := n; negative := g; overallScore := score;
     reasoning := js "Candidate was engaged. Recruiter stayed neutral." |}.

Definition both_roles (s : SentimentJudgment) : PairAnalysis :=
  {| pa_recruiterSentiment := s; pa_candidateSentiment := s |}.

Inductive Role := Recruiter | Candidate.

(** [p[role]] *)
Definition sample_of (role : Role) (p : PairAnalysis) : SentimentJudgment :=
  match role with
  | Recruiter => pa_recruiterSentiment p
  | Candidate => pa_candidateSentiment p
  end.

(** The merged judgment of [role] in the result. *)
Definition merged_of (role : Role) (r : SentimentResult) : SentimentJudgment :=
  match role with
  | Recruiter => recruiterSentiment r
  | Candidate => candidateSentiment r
  end.



(** The values after the amplification step, before re-normalisation. *)
Definition amplified (sentiments : list SentimentJudgment) : Q * Q * Q * Q :=
  let count := inject_Z (Z.of_nat (length sentiments)) in
  let avgPositive := (sum_of positive sentiments / count)%Q in
  let avgNeutral := (sum_of neutral sentiments / count)%Q in
  let avgNegative := (sum_of negative sentiments / count)%Q in
  let avgScore := (sum_of overallScore sentiments / count)%Q in
  if hasStrongPositive sentiments && negb (hasStrongNegative sentiments) then
    (Math_min 1 (avgPositive * 1.2), Math_max 0 (avgNeutral * 0.9), avgNegative,
     Math_min 10 (Math_round (avgScore + 0.5)))
  else if hasStrongNegative sentiments && negb (hasStrongPositive sentiments) then
    (avgPositive, Math_max 0 (avgNeutral * 0.9), Math_min 1 (avgNegative * 1.2),
     Math_max 1 (Math_round (avgScore - 0.5)))
  else (avgPositive, avgNeutral, avgNegative, Math_round avgScore).

End SentimentSpec.

Module TrainingSpec.
Import Training.

(** The performance-gap list has an entry for metric [m]. *)
Definition has_gap (m : jsstring) (out : Output) : bool :=
  existsb (fun g => eqb (metric g) m) (performanceGaps out).

(** Relevance 70 and continuity 80: both below their targets 80 and 85. *)
Definition below_target_inputs : Inputs :=
  {| jd_overallScore := Some 70%Q; flow_continuityScore := Some 80%Q;
     recruiter_overallScore := Some 8%Q; missed_length := Some 0 |}.

(** Relevance 35 and continuity 65: both below the reporting cut-offs. *)
Definition low_inputs : Inputs :=
  {| jd_overallScore := Some 35%Q; flow_continuityScore := Some 65%Q;
     recruiter_overallScore := Some 5%Q; missed_length := None |}.

End TrainingSpec.

Module BranchSpec.
Import FlowGraph.

(** The node opens a new branch: it is a question and the first edge that
    enters it is a topic shift. *)
Definition starts_branch (edges : list FlowEdge) (node : FlowNode) : bool :=
  bool_decide (type node = question)
  && match List.find (fun e => eqb (to e) (id node)) edges with
     | Some e => bool_decide (etype e = topic_shift)
     | None => false
     end.

Definition is_topic_shift (e : FlowEdge) : bool :=
  bool_decide (etype e = topic_shift).

(** [starts_branch] in terms of the identifier and the type of the node. *)
Definition starts_branch_at (edges : list FlowEdge) (p : jsstring * NodeType)
  : bool :=
  bool_decide (p.2 = question)
  && match List.find (fun e => eqb (to e) p.1) edges with
     | Some e => bool_decide (etype e = topic_shift)
     | None => false
     end.

(** Identifier and type of the nodes of exchange [i], [m] answers given. *)
Definition exchange_shape (m i : nat) : list (jsstring * NodeType) :=
  (q_id i, question) :: (if (i <? m)%nat then [(a_id i, answer)] else []).

End BranchSpec.

Module RatingSpec.
Import Training.

(** Position of a rating on the scale from poor to excellent. *)
Definition rating_rank (r : Rating) : nat :=
  match r with
  | poor => 0
  | needs_improvement => 1
  | good => 2
  | excellent => 3
  end.

(** Mean of the three scores, a missing one counted as 0 and the recruiter
    sentiment score scaled to 0-100. *)
Definition mean_score (inp : Inputs) : Q :=
  ((or_zero (jd_overallScore inp) + or_zero (flow_continuityScore inp)
    + or_zero (recruiter_overallScore inp) * 10) / 3)%Q.

(** The scores that are present are within their scales: at most 100 for
    relevance and continuity, at most 10 for the sentiment score. *)
Definition within_scales (inp : Inputs) : Prop :=
  (or_zero (jd_overallScore inp) <= 100
   /\ or_zero (flow_continuityScore inp) <= 100
   /\ or_zero (recruiter_overallScore inp) <= 10)%Q.

(** No score of [a] exceeds the corresponding score of [b]. *)
Definition scores_le (a b : Inputs) : Prop :=
  (or_zero (jd_overallScore a) <= or_zero (jd_overallScore b)
   /\ or_zero (flow_continuityScore a) <= or_zero (flow_continuityScore b)
   /\ or_zero (recruiter_overallScore a) <= or_zero (recruiter_overallScore b))%Q.

Definition has_strength (m : jsstring) (out : Output) : bool :=
  existsb (fun a => eqb a m) (strengthAreas out).

Definition has_recommendation (a : jsstring) (out : Output) : bool :=
  existsb (fun r => eqb (area r) a) (recommendations out).

End RatingSpec.

Module PairsSpec.
Import Pairs.

Definition pair_of (current next : Segment) : QAPair :=
  {| question := text current; answer := text next;
     questionSpeaker := speaker current; answerSpeaker := speaker next |}.

(** The pair contributed by the segments [i] and [i + 1], if any. *)
Definition pair_at (toLowerCase : jsstring -> jsstring)
  (segments : list Segment) (i : nat) : list QAPair :=
  match segments !! i, segments !! (i + 1)%nat with
  | Some current, Some next =>
      if negb (eqb (speaker current) (speaker next))
         && looks_like_question toLowerCase (text current)
      then [pair_of current next]
      else []
  | _, _ => []
  end.

(** A recruiter and a candidate taking turns. *)
Definition dialogue : list Segment :=
  [{| speaker := js "Recruiter"; text := js "Are you open to relocation?" |};
   {| speaker := js "Candidate"; text := js "Yes. Which office would it be?" |};
   {| speaker := js "Recruiter"; text := js "Pune." |}].

End PairsSpec.

Module SignalSpec.
Import Sentiment SentimentSpec.
Local Open Scope Q_scope.

(** A parsed sentiment whose fields are all present and inside the ranges
    the prompt asks for, none of them falsy. *)
Definition in_range (raw : RawSentiment) (s : SentimentJudgment) : Prop :=
  r_positive raw = Some (positive s) /\ r_neutral raw = Some (neutral s)
  /\ r_negative raw = Some (negative s)
  /\ r_overallScore raw = Some (overallScore s)
  /\ r_reasoning raw = Some (reasoning s)
  /\ 0 < positive s <= 1 /\ 0 < neutral s <= 1 /\ 0 < negative s <= 1
  /\ 1 <= overallScore s <= 10 /\ reasoning s <> [].



End SignalSpec.

Module SpanSpec.
Import Extract.

(** Number of backticks at the head of [s]. *)
Fixpoint lead (s : jsstring) : nat :=
  match s with
  | c :: s' => if (BACKTICK =? c)%N then S (lead s') else 0
  | [] => 0
  end.

End SpanSpec.

Module DetectorSpec.
Import FlowGraph.

(** Answer [i] exists and carries at least one skill tag. *)
Definition has_skills (answers : list Turn) (i : nat) : bool :=
  match answers !! i with
  | Some a => match keySkills a with Some (_ :: _) => true | _ => false end
  | None => false
  end.

(** The test of the [find] in the loop of [detectMissedFollowUps]. *)
Definition joins (i : nat) (e : FlowEdge) : bool :=
  eqb (from e) (a_id i) && eqb (to e) (q_id (i + 1)).

End DetectorSpec.

(** * Properties *)

(** ** Numbers *)

Module NumProps.

Lemma Qltb_lt x y : Qltb x y = true <-> (x < y)%Q.
Proof.
  unfold Qltb. rewrite negb_true_iff. split.
  - intros H. apply Qnot_le_lt. intros Hle.
    apply Qle_bool_iff in Hle. congruence.
  - intros H. destruct (Qle_bool y x) eqn:E; [|reflexivity].
    apply Qle_bool_iff in E. now apply Qlt_not_le in H.
Qed.

Lemma Qltb_ge x y : Qltb x y = false <-> (y <= x)%Q.
Proof.
  unfold Qltb. rewrite negb_false_iff. apply Qle_bool_iff.
Qed.



Lemma Math_min_spec x y :
  ((x <= y)%Q /\ Math_min x y = x) \/ ((y < x)%Q /\ Math_min x y = y).
Proof.
  unfold Math_min. destruct (Qle_bool x y) eqn:E.
  - left. split; [now apply Qle_bool_iff | reflexivity].
  - right. split; [|reflexivity]. apply Qnot_le_lt. intros H.
    apply Qle_bool_iff in H. congruence.
Qed.

Lemma Math_max_spec x y :
  ((x <= y)%Q /\ Math_max x y = y) \/ ((y < x)%Q /\ Math_max x y = x).
Proof.
  unfold Math_max. destruct (Qle_bool x y) eqn:E.
  - left. split; [now apply Qle_bool_iff | reflexivity].
  - right. split; [|reflexivity]. apply Qnot_le_lt. intros H.
    apply Qle_bool_iff in H. congruence.
Qed.



End NumProps.

Module FlowProps.
Import FlowGraph FlowSpec.

Section Builder.
Variable toLowerCase : jsstring -> jsstring.

Lemma count_shared_long_filter prevWords nextWords :
  length (filter (fun w => bool_decide (w ∈ nextWords) && (4 <? length w)%nat = true)
                 prevWords)
  = count_shared_long prevWords nextWords.
Proof.
  induction prevWords as [|w rest IH]; [reflexivity|].
  rewrite filter_cons. cbn [count_shared_long].
  destruct (decide (4 < length w /\ w ∈ nextWords)) as [[Hlen Hin]|Hno].
  - rewrite decide_True.
    + cbn [length Nat.add]. f_equal. exact IH.
    + rewrite bool_decide_eq_true_2 by assumption.
      apply Nat.ltb_lt in Hlen. now rewrite Hlen.
  - rewrite decide_False; [exact IH|].
    intros Hb. apply Hno. apply andb_true_iff in Hb as [Hin Hlen].
    split; [now apply Nat.ltb_lt | now apply bool_decide_eq_true_1 in Hin].
Qed.

Lemma sharedKeywords_length prevQ nextQ :
  length (sharedKeywords toLowerCase prevQ nextQ)
  = shared_long_tokens toLowerCase prevQ nextQ.
Proof. apply count_shared_long_filter. Qed.

(** *** Structure of the graph built by [buildFlowGraph] *)

Lemma node_fold_edges questions answers n :
  n <= length questions ->
  (foldl (node_step questions answers) ([], []) (seq 0 n)).2
  = direct_edge <$> seq 0 (n `min` length answers).
Proof.
  induction n as [|n IH]; intros Hn; [reflexivity|].
  rewrite seq_S, foldl_app. cbn [foldl Nat.add].
  specialize (IH ltac:(lia)).
  destruct (foldl _ _ (seq 0 n)) as [nodes edges]. cbn [snd] in IH.
  unfold node_step.
  destruct (lookup_lt_is_Some_2 questions n ltac:(lia)) as [qn ->].
  destruct (answers !! n) as [an|] eqn:Han; cbn [snd].
  - apply lookup_lt_Some in Han.
    replace (S n `min` length answers) with (S (n `min` length answers)) by lia.
    rewrite seq_S, fmap_app, IH. cbn [Nat.add].
    replace (n `min` length answers) with n by lia. reflexivity.
  - apply lookup_ge_None_1 in Han. rewrite IH. f_equal. f_equal. lia.
Qed.

Lemma node_fold_ids questions answers n :
  n <= length questions ->
  forall nd, nd ∈ (foldl (node_step questions answers) ([], []) (seq 0 n)).1 ->
    (exists j, j < n /\ id nd = q_id j)
    \/ (exists j, j < n /\ j < length answers /\ id nd = a_id j).
Proof.
  induction n as [|n IH]; intros Hn nd.
  - cbn. intros Hin. now apply elem_of_nil in Hin.
  - rewrite seq_S, foldl_app. cbn [foldl Nat.add].
    specialize (IH ltac:(lia)).
    destruct (foldl _ _ (seq 0 n)) as [nodes edges]. cbn [fst] in IH.
    unfold node_step.
    destruct (lookup_lt_is_Some_2 questions n ltac:(lia)) as [qn ->].
    assert (Hold : nd ∈ nodes ->
      (exists j, j < S n /\ id nd = q_id j)
      \/ (exists j, j < S n /\ j < length answers /\ id nd = a_id j)).
    { intros Hin. destruct (IH nd Hin) as [(j & ? & ?)|(j & ? & ? & ?)];
        [left | right]; exists j; repeat split; auto; lia. }
    destruct (answers !! n) as [an|] eqn:Han; cbn [fst];
      rewrite ?elem_of_app, ?list_elem_of_singleton.
    + apply lookup_lt_Some in Han.
      intros [[Hin | ->] | ->]; [auto | left | right]; exists n; cbn; auto.
    + intros [Hin | ->]; [auto | left]; exists n; cbn; auto.
Qed.

Lemma continuity_fold questions edges0 n :
  n + 1 <= length questions ->
  foldl (continuity_step toLowerCase questions) edges0 (seq 0 n)
  = edges0 ++ (continuity_edge toLowerCase questions <$> seq 0 n).
Proof.
  induction n as [|n IH]; intros Hn.
  - cbn. now rewrite app_nil_r.
  - rewrite seq_S, foldl_app, fmap_app, IH by lia. cbn [foldl Nat.add fmap list_fmap].
    unfold continuity_step, continuity_edge, text_at.
    destruct (lookup_lt_is_Some_2 questions n ltac:(lia)) as [qn ->].
    destruct (lookup_lt_is_Some_2 questions (n + 1) ltac:(lia)) as [qn' ->].
    cbn. now rewrite <- app_assoc.
Qed.

Lemma buildFlowGraph_edges questions answers :
  (buildFlowGraph toLowerCase questions answers).2
  = (direct_edge <$> seq 0 (length questions `min` length answers))
    ++ (continuity_edge toLowerCase questions <$> seq 0 (length questions - 1)).
Proof.
  unfold buildFlowGraph.
  pose proof (node_fold_edges questions answers (length questions) ltac:(lia)) as He.
  destruct (foldl _ _ (seq 0 (length questions))) as [nodes edges].
  cbn [snd] in *. subst edges.
  destruct questions as [|q0 qs]; [reflexivity|].
  apply continuity_fold. cbn [length]. lia.
Qed.

Lemma buildFlowGraph_ids questions answers nd :
  nd ∈ (buildFlowGraph toLowerCase questions answers).1 ->
  (exists j, j < length questions /\ id nd = q_id j)
  \/ (exists j, j < length answers /\ id nd = a_id j).
Proof.
  unfold buildFlowGraph.
  pose proof (node_fold_ids questions answers (length questions) ltac:(lia) nd) as Hid.
  destruct (foldl _ _ (seq 0 (length questions))) as [nodes edges].
  cbn [fst] in *. intros Hin.
  destruct (Hid Hin) as [?|(j & ? & ? & ?)]; [now left | right; eauto].
Qed.

(** *** Node identifiers *)

Lemma js_inj s t : js s = js t -> s = t.
Proof.
  unfold js. intros H.
  rewrite <- (string_of_list_ascii_of_string s), <- (string_of_list_ascii_of_string t).
  f_equal. revert H.
  generalize (list_ascii_of_string s) (list_ascii_of_string t).
  induction l as [|a l IH]; intros [|b l'] H; cbn in H; try discriminate; auto.
  injection H as Hab Hl. f_equal; [|now apply IH].
  rewrite <- (ascii_N_embedding a), <- (ascii_N_embedding b). now rewrite Hab.
Qed.

Lemma of_nat_inj i j : of_nat i = of_nat j -> i = j.
Proof. unfold of_nat. intros H. apply js_inj in H. now apply (inj pretty) in H. Qed.

Lemma a_id_inj i j : a_id i = a_id j -> i = j.
Proof. unfold a_id. cbn. intros H. injection H as H. now apply of_nat_inj. Qed.

Lemma q_id_inj i j : q_id i = q_id j -> i = j.
Proof. unfold q_id. cbn. intros H. injection H as H. now apply of_nat_inj. Qed.

Lemma a_id_ne_q_id i j : a_id i <> q_id j.
Proof. unfold a_id, q_id. cbn. discriminate. Qed.

(** *** Kinds and strengths of the edges *)

Lemma connection_cases prevQ nextQ :
  let c := analyzeQuestionConnection toLowerCase prevQ nextQ in
  let n := shared_long_tokens toLowerCase prevQ nextQ in
  (2 <= n /\ c_type c = follow_up /\ c_strength c = 0.8%Q)
  \/ (n = 1 /\ c_type c = topic_shift /\ c_strength c = 0.5%Q)
  \/ (n = 0 /\ c_type c = disconnected /\ c_strength c = 0.2%Q).
Proof.
  cbv zeta. unfold analyzeQuestionConnection.
  rewrite sharedKeywords_length.
  destruct (2 <=? _)%nat eqn:H2.
  - apply Nat.leb_le in H2. left. auto.
  - apply Nat.leb_gt in H2.
    destruct (_ =? 1)%nat eqn:H1.
    + apply Nat.eqb_eq in H1. right; left. auto.
    + apply Nat.eqb_neq in H1. right; right. split; [lia | auto].
Qed.

Lemma continuity_edge_not_direct questions i :
  is_direct (continuity_edge toLowerCase questions i) = false.
Proof.
  unfold is_direct, continuity_edge. cbn [etype].
  apply bool_decide_eq_false_2.
  destruct (connection_cases (text_at questions i) (text_at questions (i + 1)))
    as [(_ & -> & _)|[(_ & -> & _)|(_ & -> & _)]]; discriminate.
Qed.

Lemma filter_fmap_all {A} (p : FlowEdge -> bool) (f : A -> FlowEdge) l :
  (forall x, p (f x) = true) -> List.filter p (f <$> l) = f <$> l.
Proof.
  intros Hp. induction l as [|x l IH]; [reflexivity|].
  cbn. rewrite Hp. f_equal. exact IH.
Qed.

Lemma filter_fmap_none {A} (p : FlowEdge -> bool) (f : A -> FlowEdge) l :
  (forall x, p (f x) = false) -> List.filter p (f <$> l) = [].
Proof.
  intros Hp. induction l as [|x l IH]; [reflexivity|].
  cbn. rewrite Hp. exact IH.
Qed.

Lemma buildFlowGraph_direct questions answers :
  direct_edges (buildFlowGraph toLowerCase questions answers).2
  = direct_edge <$> seq 0 (length questions `min` length answers).
Proof.
  rewrite buildFlowGraph_edges. unfold direct_edges.
  rewrite List.filter_app, filter_fmap_all by reflexivity.
  rewrite filter_fmap_none by apply continuity_edge_not_direct.
  apply app_nil_r.
Qed.

Lemma buildFlowGraph_continuity questions answers :
  continuity_edges (buildFlowGraph toLowerCase questions answers).2
  = continuity_edge toLowerCase questions <$> seq 0 (length questions - 1).
Proof.
  rewrite buildFlowGraph_edges. unfold continuity_edges.
  rewrite List.filter_app, filter_fmap_none by reflexivity.
  rewrite filter_fmap_all; [reflexivity|].
  intros i. now rewrite continuity_edge_not_direct.
Qed.

(** C8. For N questions and M <= N answers, [buildFlowGraph] produces
    exactly M direct_response edges, each of strength 1.0, and exactly N-1
    continuity edges (none when there is no question), each of strength
    0.2, 0.5 or 0.8. *)
Theorem C8_edge_counts questions answers :
  length answers <= length questions ->
  let edges := (buildFlowGraph toLowerCase questions answers).2 in
  length (direct_edges edges) = length answers
  /\ Forall (fun e => strength e = 1.0%Q) (direct_edges edges)
  /\ length (continuity_edges edges) = length questions - 1
  /\ Forall (fun e => strength e = 0.2%Q \/ strength e = 0.5%Q \/ strength e = 0.8%Q)
            (continuity_edges edges).
Proof.
  intros HM edges. subst edges.
  rewrite buildFlowGraph_direct, buildFlowGraph_continuity.
  rewrite !length_fmap, !length_seq.
  repeat split.
  - lia.
  - apply Forall_fmap, Forall_forall. intros; reflexivity.
  - apply Forall_fmap, Forall_forall. intros i _. unfold compose. cbn [continuity_edge strength].
    destruct (connection_cases (text_at questions i) (text_at questions (i + 1)))
      as [(_ & _ & ->)|[(_ & _ & ->)|(_ & _ & ->)]]; auto.
Qed.

(** C10. When there are fewer answers (M) than questions (N), the edge list
    still holds, for every i in [0, N-2], the continuity edge from a<i> to
    q<i+1>; for M <= i <= N-2 the source a<i> of that edge is the id of no
    node of the returned node list. *)
Theorem C10_dangling_edges questions answers :
  length answers < length questions ->
  let '(nodes, edges) := buildFlowGraph toLowerCase questions answers in
  (forall i, i + 1 < length questions ->
     exists e, e ∈ edges /\ from e = a_id i /\ to e = q_id (i + 1))
  /\ (forall i, length answers <= i -> i + 1 < length questions ->
       forall nd, nd ∈ nodes -> id nd <> a_id i).
Proof.
  intros HM.
  pose proof (buildFlowGraph_edges questions answers) as He.
  pose proof (buildFlowGraph_ids questions answers) as Hid.
  destruct (buildFlowGraph toLowerCase questions answers) as [nodes edges].
  cbn [fst snd] in *. split.
  - intros i Hi. exists (continuity_edge toLowerCase questions i).
    split; [|split; reflexivity].
    rewrite He. apply elem_of_app. right.
    apply list_elem_of_fmap. exists i. split; [reflexivity|].
    apply elem_of_seq. lia.
  - intros i Hlo Hhi nd Hin Heq.
    destruct (Hid nd Hin) as [(j & _ & Hj)|(j & Hlt & Hj)]; rewrite Hj in Heq.
    + symmetry in Heq. now apply a_id_ne_q_id in Heq.
    + apply a_id_inj in Heq. lia.
Qed.


End Builder.

(** *** Missed follow-ups *)

Section Detector.
Variable toLowerCase : jsstring -> jsstring.

Lemma missed_step_returns questions answers edges missed i :
  i + 1 < length answers -> length answers <= length questions ->
  missed_step toLowerCase questions answers edges missed i
  = Returned (missed ++ tag_rule toLowerCase questions answers i ++ edge_rule edges i).
Proof.
  intros Hi Hlen. unfold missed_step, tag_rule, edge_rule, text_at.
  destruct (lookup_lt_is_Some_2 answers i ltac:(lia)) as [a ->].
  destruct (lookup_lt_is_Some_2 questions (i + 1) ltac:(lia)) as [nq ->].
  cbn [fmap option_fmap option_map default].
  destruct (keySkills a) as [[|skill0 rest]|]; cbn [bind];
    try destruct (existsb _ (skill0 :: rest)); cbn [bind];
    destruct (List.find _ edges) as [e|];
    try destruct (bool_decide (etype e = disconnected));
    rewrite ?app_nil_r, ?app_nil_l, <- ?app_assoc; reflexivity.
Qed.

Lemma for_each_missed questions answers edges n : forall k missed,
  k + n <= length answers - 1 -> length answers <= length questions ->
  for_each (missed_step toLowerCase questions answers edges) missed (seq k n)
  = Returned (missed ++ concat ((fun i => tag_rule toLowerCase questions answers i
                                          ++ edge_rule edges i) <$> seq k n)).
Proof.
  induction n as [|n IH]; intros k missed Hk Hlen.
  - cbn. now rewrite app_nil_r.
  - cbn [seq for_each]. rewrite missed_step_returns by lia. cbn [bind].
    rewrite IH by lia. cbn [fmap list_fmap concat]. now rewrite <- !app_assoc.
Qed.

Lemma tag_rule_after questions answers i m :
  m ∈ tag_rule toLowerCase questions answers i -> afterNode m = a_id i.
Proof.
  unfold tag_rule.
  destruct (answers !! i) as [a|]; [|intros H; now apply elem_of_nil in H].
  destruct (keySkills a) as [[|skill0 rest]|];
    try (intros H; now apply elem_of_nil in H).
  destruct (existsb _ _); [intros H; now apply elem_of_nil in H|].
  intros H. apply list_elem_of_singleton in H. now subst m.
Qed.

Lemma edge_rule_after edges i m : m ∈ edge_rule edges i -> afterNode m = a_id i.
Proof.
  unfold edge_rule.
  destruct (List.find _ edges) as [e|]; [|intros H; now apply elem_of_nil in H].
  destruct (bool_decide _); [|intros H; now apply elem_of_nil in H].
  intros H. apply list_elem_of_singleton in H. now subst m.
Qed.

Lemma filter_after_same i l :
  (forall m, m ∈ l -> afterNode m = a_id i) -> records_at l i = l.
Proof.
  intros H. unfold records_at. induction l as [|m l IH]; [reflexivity|].
  cbn. unfold eqb at 1. rewrite bool_decide_eq_true_2.
  - f_equal. apply IH. intros m' Hm'. apply H. now right.
  - apply H. now left.
Qed.

Lemma filter_after_other i j l :
  i <> j -> (forall m, m ∈ l -> afterNode m = a_id j) -> records_at l i = [].
Proof.
  intros Hij H. unfold records_at. induction l as [|m l IH]; [reflexivity|].
  cbn. unfold eqb at 1. rewrite bool_decide_eq_false_2.
  - apply IH. intros m' Hm'. apply H. now right.
  - rewrite (H m) by now left. intros Heq. apply a_id_inj in Heq. congruence.
Qed.

Lemma records_at_app l1 l2 i :
  records_at (l1 ++ l2) i = records_at l1 i ++ records_at l2 i.
Proof. apply List.filter_app. Qed.

Lemma records_at_concat (f : nat -> list MissedFollowUp) i n : forall k,
  (forall j m, m ∈ f j -> afterNode m = a_id j) ->
  records_at (concat (f <$> seq k n)) i
  = if decide (k <= i < k + n) then f i else [].
Proof.
  induction n as [|n IH]; intros k Hf.
  - cbn. destruct (decide _); [lia | reflexivity].
  - cbn [seq fmap list_fmap concat]. rewrite records_at_app, IH by assumption.
    destruct (decide (i = k)) as [->|Hne].
    + rewrite (filter_after_same k) by apply Hf.
      rewrite decide_False by lia. rewrite decide_True by lia. apply app_nil_r.
    + rewrite (filter_after_other i k) by (auto using Hf).
      cbn [app]. destruct (decide (S k <= i < S k + n));
        [rewrite decide_True by lia | rewrite decide_False by lia]; reflexivity.
Qed.

Lemma rules_length questions answers edges i :
  length (tag_rule toLowerCase questions answers i ++ edge_rule edges i) <= 2.
Proof.
  rewrite length_app. unfold tag_rule, edge_rule.
  destruct (answers !! i) as [a|]; [destruct (keySkills a) as [[|s0 r]|];
    [| destruct (existsb _ _) |] |];
  destruct (List.find _ edges) as [e|]; try destruct (bool_decide _); cbn; lia.
Qed.

(** C2, amended. When there are at least as many questions as answers,
    [detectMissedFollowUps] returns, and the records it emits for an answer
    index i before the last are the high-importance record of the
    untouched-tag rule (when that rule fires) followed by the
    medium-importance record of the disconnected-edge rule (when that rule
    fires): the two rules are independent, so an index gets at most two
    records, and both when both rules fire. *)
Theorem C2_records_per_index questions answers edges :
  length answers <= length questions ->
  exists missed,
    detectMissedFollowUps toLowerCase questions answers edges = Returned missed
    /\ forall i,
         records_at missed i
         = (if decide (i + 1 < length answers)
            then tag_rule toLowerCase questions answers i ++ edge_rule edges i
            else [])
         /\ length (records_at missed i) <= 2.
Proof.
  intros Hlen. eexists. split.
  - unfold detectMissedFollowUps. rewrite for_each_missed by lia.
    rewrite app_nil_l. reflexivity.
  - intros i.
    assert (Heq : records_at
              (concat ((fun i => tag_rule toLowerCase questions answers i
                                 ++ edge_rule edges i)
                       <$> seq 0 (length answers - 1))) i
            = if decide (i + 1 < length answers)
              then tag_rule toLowerCase questions answers i ++ edge_rule edges i
              else []).
    { rewrite records_at_concat.
      - destruct (decide (i + 1 < length answers));
          [rewrite decide_True by lia | rewrite decide_False by lia]; reflexivity.
      - intros j m Hm. apply elem_of_app in Hm as [Hm|Hm];
          eauto using tag_rule_after, edge_rule_after. }
    split; [exact Heq|]. rewrite Heq.
    destruct (decide _); [apply rules_length | cbn; lia].
Qed.

End Detector.

(** C2, as stated: on an input where the answer carries a tag that the next
    question does not touch and the edge to that question is disconnected,
    two records are emitted for the same answer index, the tag-based one
    and the edge-based one. *)
Lemma C2_two_records_at_one_index :
  exists r1 r2,
    detectMissedFollowUps ascii_toLowerCase both_questions both_answers both_edges
    = Returned [r1; r2]
    /\ afterNode r1 = a_id 0 /\ importance r1 = high
    /\ afterNode r2 = a_id 0 /\ importance r2 = medium
    /\ length (records_at [r1; r2] 0) = 2.
Proof.
  do 2 eexists. split; [vm_compute; reflexivity|].
  repeat split; vm_compute; reflexivity.
Qed.

Lemma C2_records_per_index_witness :
  length both_answers <= length both_questions
  /\ exists missed,
       detectMissedFollowUps ascii_toLowerCase both_questions both_answers both_edges
       = Returned missed
       /\ forall i,
            records_at missed i
            = (if decide (i + 1 < length both_answers)
               then tag_rule ascii_toLowerCase both_questions both_answers i
                    ++ edge_rule both_edges i
               else [])
            /\ length (records_at missed i) <= 2.
Proof.
  split; [cbn; lia|].
  apply (C2_records_per_index ascii_toLowerCase both_questions both_answers both_edges).
  cbn; lia.
Defined.

Lemma C8_edge_counts_witness :
  let questions := scenario_questions ++ both_questions in
  let answers := scenario_answers in
  length answers <= length questions
  /\ let edges := (buildFlowGraph ascii_toLowerCase questions answers).2 in
     length (direct_edges edges) = length answers
     /\ Forall (fun e => strength e = 1.0%Q) (direct_edges edges)
     /\ length (continuity_edges edges) = length questions - 1
     /\ Forall (fun e => strength e = 0.2%Q \/ strength e = 0.5%Q \/ strength e = 0.8%Q)
               (continuity_edges edges).
Proof.
  intros questions answers. split; [cbn; lia|].
  apply (C8_edge_counts ascii_toLowerCase questions answers). cbn; lia.
Defined.

Lemma C10_dangling_edges_witness :
  let questions := scenario_questions ++ both_questions in
  let answers := scenario_answers in
  let graph := buildFlowGraph ascii_toLowerCase questions answers in
  length answers < length questions
  /\ length answers <= 2 /\ 2 + 1 < length questions
  /\ (exists e, e ∈ graph.2 /\ from e = a_id 2 /\ to e = q_id (2 + 1))
  /\ (forall nd, nd ∈ graph.1 -> id nd <> a_id 2).
Proof.
  intros questions answers graph.
  assert (HM : length answers < length questions) by (cbn; lia).
  assert (Hlo : length answers <= 2) by (cbn; lia).
  assert (Hhi : 2 + 1 < length questions) by (cbn; lia).
  pose proof (C10_dangling_edges ascii_toLowerCase questions answers HM) as Hthm.
  fold graph in Hthm. destruct graph as [nodes edges].
  destruct Hthm as [Hedge Hnode].
  repeat (split; [assumption|]).
  split; [exact (Hedge 2 Hhi) | exact (Hnode 2 Hlo Hhi)].
Defined.


Example scenario_shared_keywords :
  sharedKeywords ascii_toLowerCase
    (text_at scenario_questions 0) (text_at scenario_questions 1)
  = [js "experience"].
Proof. vm_compute. reflexivity. Qed.

Example split_ws_edges :
  split_ws (js "  tell me   more ") = [[]; js "tell"; js "me"; js "more"; []].
Proof. vm_compute. reflexivity. Qed.

(** C3, as stated: the continuity edge of the scenario is not a follow_up
    of strength 0.8 with score 80. *)
Lemma C3_scenario_not_follow_up : ~ scenario_outcome follow_up 0.8 80.
Proof.
  intros (e & He & _ & _ & Hty & _).
  vm_compute in He. injection He as <-. discriminate Hty.
Qed.

(** C3, amended: in the scenario the two questions share one token longer
    than 4 characters ("experience"), so the continuity edge from a0 to q1 is
    a topic_shift of strength 0.5, and [calculateLogicalScore] over that
    single edge returns 50. *)
Theorem C3_scenario_topic_shift : scenario_outcome topic_shift 0.5 50.
Proof.
  eexists. split; [vm_compute; reflexivity|].
  repeat split; vm_compute; reflexivity.
Qed.

End FlowProps.

(** ** Training recommendations *)

Module TrainingProps.
Import Training TrainingSpec NumProps.

Lemma performanceGaps_sections inp :
  performanceGaps (generateTrainingRecommendations inp)
  = (jd_section inp).1.2 ++ (flow_section inp).1.2.
Proof.
  unfold generateTrainingRecommendations.
  destruct (jd_section inp) as [[recs1 gaps1] strengths1].
  destruct (flow_section inp) as [[recs2 gaps2] strengths2].
  reflexivity.
Qed.

Lemma jd_gaps inp :
  (jd_section inp).1.2
  = match jd_overallScore inp with
    | Some s =>
        if Qltb s 60 then
          [{| metric := js "JD Relevance"; currentScore := s; targetScore := 80;
              gap := 80 - s;
              severity := if Qltb s 40 then sev_critical else moderate |}]
        else []
    | None => []
    end.
Proof.
  unfold jd_section. destruct (jd_overallScore inp) as [s|]; [|reflexivity].
  destruct (Qltb s 60); [reflexivity|]. now destruct (Qgeb s 80).
Qed.

Lemma flow_gaps inp :
  (flow_section inp).1.2
  = match flow_continuityScore inp with
    | Some s =>
        if Qltb s 70 then
          [{| metric := js "Flow Continuity"; currentScore := s; targetScore := 85;
              gap := 85 - s;
              severity := if Qltb s 50 then sev_critical else moderate |}]
        else []
    | None => []
    end.
Proof.
  unfold flow_section. destruct (flow_continuityScore inp) as [s|]; [|reflexivity].
  destruct (Qltb s 70); [reflexivity|]. now destruct (Qgeb s 85).
Qed.

Example low_scores_two_gaps :
  (fun g => (metric g, severity g))
    <$> performanceGaps (generateTrainingRecommendations low_inputs)
  = [(js "JD Relevance", sev_critical); (js "Flow Continuity", moderate)].
Proof. reflexivity. Qed.

(** C9, as stated: with relevance 70 (below the target 80) and continuity
    80 (below the target 85) the performance-gap list is empty. *)
Lemma C9_below_target_without_gap :
  (70 < 80)%Q /\ (80 < 85)%Q
  /\ jd_overallScore below_target_inputs = Some 70%Q
  /\ flow_continuityScore below_target_inputs = Some 80%Q
  /\ performanceGaps (generateTrainingRecommendations below_target_inputs) = [].
Proof. repeat split. Qed.

(** C9, amended. The performance-gap list has a JD Relevance entry (whose
    target score is 80) exactly when the relevance score is present and
    below 60, and a Flow Continuity entry (whose target score is 85) exactly
    when the continuity score is present and below 70; a score at or above
    its cut-off produces no entry, and there are no other entries. *)
Theorem C9_gap_cutoffs inp :
  let out := generateTrainingRecommendations inp in
  (has_gap (js "JD Relevance") out = true
   <-> exists s, jd_overallScore inp = Some s /\ (s < 60)%Q)
  /\ (has_gap (js "Flow Continuity") out = true
      <-> exists s, flow_continuityScore inp = Some s /\ (s < 70)%Q)
  /\ Forall (fun g =>
               (metric g = js "JD Relevance" /\ targetScore g = 80%Q
                /\ jd_overallScore inp = Some (currentScore g)
                /\ gap g = (80 - currentScore g)%Q)
               \/ (metric g = js "Flow Continuity" /\ targetScore g = 85%Q
                   /\ flow_continuityScore inp = Some (currentScore g)
                   /\ gap g = (85 - currentScore g)%Q))
            (performanceGaps out).
Proof.
  cbv zeta. unfold has_gap.
  rewrite performanceGaps_sections, jd_gaps, flow_gaps.
  destruct (jd_overallScore inp) as [s1|];
    [destruct (Qltb s1 60) eqn:E1;
       [apply Qltb_lt in E1 | apply Qltb_ge in E1]|];
    (destruct (flow_continuityScore inp) as [s2|];
       [destruct (Qltb s2 70) eqn:E2;
          [apply Qltb_lt in E2 | apply Qltb_ge in E2]|]);
    (split; [|split]);
    try (cbn; split;
         [ (intros _; eexists; split; [reflexivity | assumption])
           || (intros H; discriminate H)
         | (intros _; reflexivity)
           || (intros (s & Hs & Hlt); try discriminate Hs;
               injection Hs as <-; exfalso; now apply Qlt_not_le in Hlt) ]);
    cbn [app];
    repeat (apply Forall_cons;
            [ solve [left; repeat split; reflexivity
                    | right; repeat split; reflexivity] | ]);
    apply Forall_nil.
Qed.

End TrainingProps.

(** ** Sentiment aggregation *)

Module SentimentProps.
Import Sentiment SentimentSpec NumProps.
Local Open Scope Q_scope.


Lemma count_nonneg (n : nat) : 0 <= inject_Z (Z.of_nat n).
Proof. change 0 with (inject_Z 0). rewrite <- Zle_Qle. lia. Qed.


(** The left fold of the code computes the sum. *)
Lemma foldl_sum f (l : list SentimentJudgment) : forall a,
  foldl (fun sum s => sum + f s) a l == a + Qsum (f <$> l).
Proof.
  induction l as [|s l IH]; intros a; cbn.
  - ring.
  - rewrite IH. ring.
Qed.

Lemma sum_of_Qsum f l : sum_of f l == Qsum (f <$> l).
Proof. unfold sum_of. rewrite foldl_sum. ring. Qed.

Lemma avg_mean f l :
  sum_of f l / inject_Z (Z.of_nat (length l)) == mean f l.
Proof. unfold mean. now rewrite sum_of_Qsum. Qed.














(** *** The result of [aggregateRole] in terms of the amplified values *)

Lemma aggregateRole_amplified l :
  let '(fp, fn, fg, fs) := amplified l in
  let total := fp + fn + fg in
  overallScore (aggregateRole l) = fs
  /\ if Qgtb total 0 then
       positive (aggregateRole l) = fp / total
       /\ neutral (aggregateRole l) = fn / total
       /\ negative (aggregateRole l) = fg / total
     else
       positive (aggregateRole l) = fp
       /\ neutral (aggregateRole l) = fn
       /\ negative (aggregateRole l) = fg.
Proof.
  unfold aggregateRole, amplified. cbv zeta.
  destruct (hasStrongPositive l), (hasStrongNegative l); cbn [andb negb];
    match goal with |- context [Qgtb ?t 0] => destruct (Qgtb t 0) end;
    repeat split.
Qed.





Lemma aggregate_role role pairs :
  pairs <> [] ->
  merged_of role (aggregatePairSentiments pairs)
  = aggregateRole (sample_of role <$> pairs).
Proof.
  intros Hne. unfold aggregatePairSentiments.
  destruct pairs as [|p pairs]; [congruence|].
  cbn [length Nat.eqb]. now destruct role.
Qed.




(** *** Amplification *)






End SentimentProps.

(** ** Extraction of a JSON value *)

Module ExtractProps.
Import Extract Json ExtractSpec.

(** *** The scan returns only where the depth is back to zero *)

Lemma scan_returns_zero sc ec s : forall d inS esc i j,
  scan sc ec d inS esc i s = Some j ->
  exists k, k < length s /\ j = i + k
            /\ (foldl (step sc ec) (d, inS, esc) (take (S k) s)).1.1 = 0%Z.
Proof.
  induction s as [|c s IH]; intros d inS esc i j H; [discriminate|].
  cbn [scan] in H. cbn [take foldl length]. unfold step at 2.
  assert (Hnext : forall d' inS' esc',
            scan sc ec d' inS' esc' (S i) s = Some j ->
            exists k, k < S (length s) /\ j = i + k
              /\ (foldl (step sc ec) (d', inS', esc') (take k s)).1.1 = 0%Z).
  { intros d' inS' esc' H'. destruct (IH _ _ _ _ _ H') as (k & Hk & -> & Hz).
    exists (S k). repeat split; [lia | lia | exact Hz]. }
  destruct esc; [now apply Hnext|].
  destruct (c =? BACKSLASH)%N; [now apply Hnext|].
  destruct (c =? DQUOTE)%N; [now apply Hnext|].
  destruct inS; [now apply Hnext|].
  destruct (c =? sc)%N; [now apply Hnext|].
  destruct (c =? ec)%N; [|now apply Hnext].
  destruct (d - 1 =? 0)%Z eqn:Ez; [|now apply Hnext].
  injection H as <-. apply Z.eqb_eq in Ez.
  exists 0. repeat split; [lia | lia | exact Ez].
Qed.

Lemma opener_cases c :
  is_opener c = true ->
  (c = LBRACE \/ c = LBRACKET)
  /\ (c =? BACKSLASH)%N = false /\ (c =? DQUOTE)%N = false
  /\ (c =? closer_of c)%N = false.
Proof.
  unfold is_opener. intros H. apply orb_true_iff in H.
  destruct H as [H|H]; apply N.eqb_eq in H; subst c; repeat split; auto.
Qed.

Lemma never_zero_scan sc rest i :
  is_opener sc = true ->
  never_zero sc (sc :: rest) = true ->
  scan sc (closer_of sc) 0 false false i (sc :: rest) = None.
Proof.
  intros Hop Hnz.
  destruct (scan sc (closer_of sc) 0 false false i (sc :: rest)) as [j|] eqn:E;
    [|reflexivity].
  apply scan_returns_zero in E as (k & Hk & _ & Hz).
  unfold never_zero in Hnz. rewrite forallb_forall in Hnz.
  specialize (Hnz (S k)). unfold depth_after in Hnz. rewrite Hz in Hnz.
  discriminate Hnz. apply in_seq. lia.
Qed.

(** Conversely, while the scan has not returned the depth stays positive. *)
Lemma scan_none_positive sc ec s : forall d inS esc i,
  (1 <= d)%Z -> scan sc ec d inS esc i s = None ->
  forall k, k <= length s ->
    (1 <= (foldl (step sc ec) (d, inS, esc) (take k s)).1.1)%Z.
Proof.
  induction s as [|c s IH]; intros d inS esc i Hd H k Hk.
  - destruct k; cbn; lia.
  - destruct k as [|k]; [cbn; lia|].
    cbn [length] in Hk. cbn [take foldl]. cbn [scan] in H. unfold step at 2.
    destruct esc; [eapply IH; [| exact H |]; lia|].
    destruct (c =? BACKSLASH)%N; [eapply IH; [| exact H |]; lia|].
    destruct (c =? DQUOTE)%N; [eapply IH; [| exact H |]; lia|].
    destruct inS; [eapply IH; [| exact H |]; lia|].
    destruct (c =? sc)%N; [eapply IH; [| exact H |]; lia|].
    destruct (c =? ec)%N; [|eapply IH; [| exact H |]; lia].
    destruct (d - 1 =? 0)%Z eqn:Ez; [discriminate|].
    apply Z.eqb_neq in Ez. eapply IH; [| exact H |]; lia.
Qed.

(** From the first opener on, the scan runs to the end of the text exactly
    when the nesting depth never returns to zero. *)
Lemma scan_none_iff_never_zero sc rest i :
  is_opener sc = true ->
  scan sc (closer_of sc) 0 false false i (sc :: rest) = None
  <-> never_zero sc (sc :: rest) = true.
Proof.
  intros Hop. split; [|now apply never_zero_scan].
  intros H. unfold never_zero. apply forallb_forall. intros k Hk.
  apply in_seq in Hk. apply negb_true_iff, Z.eqb_neq.
  destruct k as [|k]; [lia|]. unfold depth_after.
  cbn [take foldl]. cbn [scan] in H. unfold step at 2.
  destruct (opener_cases sc Hop) as (_ & E1 & E2 & _).
  rewrite E1, E2, N.eqb_refl in *.
  pose proof (scan_none_positive sc (closer_of sc) rest 1 false false (S i)
                ltac:(lia) H k ltac:(cbn [length] in Hk; lia)) as Hpos.
  change (0 + 1)%Z with 1%Z. cbn in Hpos |- *. lia.
Qed.

(** *** Position of the first opening delimiter *)

Lemma index_of_app_notin c pre s :
  (forall d, In d pre -> d <> c) ->
  index_of c (pre ++ s) = (fun n => length pre + n) <$> index_of c s.
Proof.
  intros Hpre. induction pre as [|d pre IH]; cbn [app index_of length].
  - now destruct (index_of c s).
  - destruct (N.eqb_spec d c) as [->|_].
    + exfalso. apply (Hpre c); [now left | reflexivity].
    + rewrite IH by (intros d' Hd'; apply Hpre; now right).
      now destruct (index_of c s).
Qed.

Lemma index_of_notin c s :
  (forall d, In d s -> d <> c) -> index_of c s = None.
Proof.
  intros Hs. rewrite <- (app_nil_r s). now rewrite index_of_app_notin.
Qed.

Lemma no_opener_notin s :
  no_opener s = true ->
  (forall d, In d s -> d <> LBRACE) /\ (forall d, In d s -> d <> LBRACKET).
Proof.
  unfold no_opener. rewrite forallb_forall. intros H.
  split; intros d Hd ->; specialize (H _ Hd); discriminate H.
Qed.

Lemma jsonStart_none s : no_opener s = true -> jsonStart s = None.
Proof.
  intros H. apply no_opener_notin in H as [H1 H2].
  unfold jsonStart. now rewrite !index_of_notin.
Qed.

Lemma jsonStart_first pre c rest :
  no_opener pre = true -> is_opener c = true ->
  jsonStart (pre ++ c :: rest) = Some (length pre).
Proof.
  intros Hpre Hc. apply no_opener_notin in Hpre as [H1 H2].
  unfold jsonStart. rewrite !index_of_app_notin by assumption.
  destruct (opener_cases c Hc) as ([-> | ->] & _); cbn [index_of].
  - cbn. destruct (index_of LBRACKET rest); cbn; f_equal; lia.
  - cbn. destruct (index_of LBRACE rest); cbn; f_equal; lia.
Qed.

(** *** The scan over well-formed JSON *)

Lemma passes_nil : passes [].
Proof. intros sc ec d i r _ _. cbn. f_equal. lia. Qed.

Lemma passes_app v w : passes v -> passes w -> passes (v ++ w).
Proof.
  intros Hv Hw sc ec d i r Hk Hd.
  rewrite <- app_assoc, Hv, Hw by assumption.
  rewrite length_app. f_equal. lia.
Qed.

Lemma plain_tests c sc ec :
  is_plain c = true -> delims sc ec ->
  (c =? BACKSLASH)%N = false /\ (c =? DQUOTE)%N = false
  /\ (c =? sc)%N = false /\ (c =? ec)%N = false.
Proof.
  unfold is_plain, is_opener. rewrite negb_true_iff, !orb_false_iff.
  intros ((((H1 & H2) & H3 & H4) & H5) & H6) [[-> ->]|[-> ->]]; auto.
Qed.

Lemma passes_plain c : is_plain c = true -> passes [c].
Proof.
  intros Hc sc ec d i r Hk Hd.
  destruct (plain_tests c sc ec Hc Hk) as (E1 & E2 & E3 & E4).
  cbn [app scan]. rewrite E1, E2, E3, E4. cbn [length]. f_equal. lia.
Qed.

Lemma passes_all_plain v : forallb is_plain v = true -> passes v.
Proof.
  induction v as [|c v IH]; [intros; apply passes_nil|].
  cbn [forallb]. intros H. apply andb_true_iff in H as [Hc Hv].
  apply (passes_app [c] v); [now apply passes_plain | now apply IH].
Qed.

Lemma delims_closer sc : is_opener sc = true -> delims sc (closer_of sc).
Proof.
  intros H. destruct (opener_cases sc H) as ([-> | ->] & _); [left | right]; auto.
Qed.

(** A balanced group: an opener, text that the scan passes, the matching
    closer. *)
Lemma passes_group c b :
  is_opener c = true -> passes b -> passes (c :: b ++ [closer_of c]).
Proof.
  intros Hc Hb sc ec d i r Hk Hd.
  cbn [app scan length]. rewrite <- app_assoc. cbn [app].
  destruct (opener_cases c Hc) as (Hcase & E1 & E2 & E3). rewrite E1, E2.
  destruct (N.eqb_spec c sc) as [<-|Hne].
  - (* the tracked kind: depth goes up, then back *)
    assert (ec = closer_of c) as ->.
    { destruct Hk as [[-> ->]|[-> ->]]; reflexivity. }
    rewrite Hb by (auto; lia). cbn [scan].
    destruct Hcase as [-> | ->]; cbn.
    + destruct (d + 1 - 1 =? 0)%Z eqn:Ez; [apply Z.eqb_eq in Ez; lia|].
      rewrite length_app. cbn [length].
      replace (d + 1 - 1)%Z with d by lia. f_equal. lia.
    + destruct (d + 1 - 1 =? 0)%Z eqn:Ez; [apply Z.eqb_eq in Ez; lia|].
      rewrite length_app. cbn [length].
      replace (d + 1 - 1)%Z with d by lia. f_equal. lia.
  - (* the other kind: both delimiters are ignored *)
    assert (Hec : (c =? ec)%N = false
                  /\ (closer_of c =? sc)%N = false /\ (closer_of c =? ec)%N = false).
    { destruct Hcase as [-> | ->], Hk as [[-> ->]|[-> ->]];
        try congruence; repeat split; reflexivity. }
    destruct Hec as (E4 & E5 & E6). rewrite E4.
    rewrite Hb by assumption. cbn [scan].
    assert (E7 : (closer_of c =? BACKSLASH)%N = false
                 /\ (closer_of c =? DQUOTE)%N = false).
    { destruct Hcase as [-> | ->]; split; reflexivity. }
    destruct E7 as [E7 E8]. rewrite E7, E8, E5, E6.
    rewrite length_app. cbn [length]. f_equal. lia.
Qed.

(** String literals: after the opening quote the scan runs to the closing
    quote, whatever delimiters the literal contains. *)
Lemma string_tail_scan n : forall s rest,
  length s <= n -> string_tail s = Some rest ->
  exists v, s = v ++ rest
    /\ forall sc ec d i r,
         scan sc ec d true false i (v ++ r)
         = scan sc ec d false false (i + length v) r.
Proof.
  induction n as [|n IH]; intros s rest Hlen H.
  - destruct s; [discriminate | cbn in Hlen; lia].
  - destruct s as [|c s']; [discriminate|]. cbn [string_tail] in H.
    cbn [length] in Hlen.
    destruct (c =? DQUOTE)%N eqn:Eq.
    + injection H as <-. exists [c]. split; [reflexivity|].
      intros. cbn [app scan length].
      destruct (c =? BACKSLASH)%N eqn:Eb.
      { apply N.eqb_eq in Eq, Eb. subst c. discriminate. }
      rewrite Eq. cbn. f_equal. lia.
    + destruct (c =? BACKSLASH)%N eqn:Eb.
      * destruct s' as [|e s'']; [discriminate|]. cbn [length] in Hlen.
        assert (H' : string_tail s'' = Some rest).
        { destruct (is_simple_escape e); [exact H|].
          destruct ((e =? 117)%N && hex4 s''); [exact H | discriminate]. }
        destruct (IH s'' rest ltac:(lia) H') as (v & -> & Hv).
        exists (c :: e :: v). split; [reflexivity|].
        intros. cbn [app scan length]. rewrite Eb, Hv. f_equal. lia.
      * assert (H' : string_tail s' = Some rest)
          by (destruct (c <? 32)%N; [discriminate | exact H]).
        destruct (IH s' rest ltac:(lia) H') as (v & -> & Hv).
        exists (c :: v). split; [reflexivity|].
        intros. cbn [app scan length]. rewrite Eb, Eq, Hv. f_equal. lia.
Qed.

Lemma seg_refl s : seg s s.
Proof. exists []. split; [reflexivity | apply passes_nil]. Qed.

Lemma seg_trans s t u : seg s t -> seg t u -> seg s u.
Proof.
  intros (v & -> & Hv) (w & -> & Hw). exists (v ++ w).
  split; [now rewrite app_assoc | now apply passes_app].
Qed.

Lemma seg_plain c s : is_plain c = true -> seg (c :: s) s.
Proof. intros Hc. exists [c]. split; [reflexivity | now apply passes_plain]. Qed.

Lemma seg_string s rest : string_tail s = Some rest -> seg (DQUOTE :: s) rest.
Proof.
  intros H. destruct (string_tail_scan (length s) s rest (le_n _) H) as (v & -> & Hv).
  exists (DQUOTE :: v). split; [reflexivity|].
  intros sc ec d i r _ _. cbn [app scan length]. rewrite Hv. f_equal. lia.
Qed.

Lemma seg_group c s rest :
  is_opener c = true -> seg s (closer_of c :: rest) -> seg (c :: s) rest.
Proof.
  intros Hc (b & -> & Hb). exists (c :: b ++ [closer_of c]). split.
  - cbn. now rewrite <- app_assoc.
  - now apply passes_group.
Qed.

Lemma is_plain_ne c :
  c <> 92%N -> c <> 34%N -> c <> 123%N -> c <> 91%N -> c <> 125%N -> c <> 93%N ->
  is_plain c = true.
Proof.
  intros. unfold is_plain, is_opener, BACKSLASH, DQUOTE, LBRACE, LBRACKET,
    RBRACE, RBRACKET.
  repeat match goal with
         | |- context [(c =? ?k)%N] => destruct (N.eqb_spec c k); [congruence|]
         end.
  reflexivity.
Qed.

Lemma ws_plain c : is_json_ws c = true -> is_plain c = true.
Proof.
  unfold is_json_ws. rewrite !orb_true_iff, !N.eqb_eq.
  intros H. apply is_plain_ne; lia.
Qed.

Lemma digit_plain c : is_digit c = true -> is_plain c = true.
Proof.
  unfold is_digit. rewrite andb_true_iff, !N.leb_le.
  intros H. apply is_plain_ne; lia.
Qed.

Lemma seg_skip_ws s : seg s (skip_ws s).
Proof.
  induction s as [|c s IH]; [apply seg_refl|]. cbn [skip_ws].
  destruct (is_json_ws c) eqn:E; [|apply seg_refl].
  eapply seg_trans; [apply seg_plain; now apply ws_plain | exact IH].
Qed.

Lemma seg_digits s : seg s (digits s).
Proof.
  induction s as [|c s IH]; [apply seg_refl|]. cbn [digits].
  destruct (is_digit c) eqn:E; [|apply seg_refl].
  eapply seg_trans; [apply seg_plain; now apply digit_plain | exact IH].
Qed.

Lemma seg_digits1 s rest : digits1 s = Some rest -> seg s rest.
Proof.
  destruct s as [|c s]; [discriminate|]. cbn [digits1].
  destruct (is_digit c) eqn:E; [|discriminate]. intros [= <-].
  eapply seg_trans; [apply seg_plain; now apply digit_plain | apply seg_digits].
Qed.

Lemma seg_opt_minus s : seg s (opt_minus s).
Proof.
  destruct s as [|c s]; [apply seg_refl|]. cbn [opt_minus].
  destruct (N.eqb_spec c 45) as [->|_]; [|apply seg_refl].
  now apply seg_plain.
Qed.

Lemma seg_int_part s rest : int_part s = Some rest -> seg s rest.
Proof.
  destruct s as [|c s]; [discriminate|]. cbn [int_part].
  destruct (N.eqb_spec c 48) as [->|_].
  - intros [= <-]. now apply seg_plain.
  - destruct (is_digit c) eqn:E; [|discriminate]. intros [= <-].
    eapply seg_trans; [apply seg_plain; now apply digit_plain | apply seg_digits].
Qed.

Lemma seg_frac_part s rest : frac_part s = Some rest -> seg s rest.
Proof.
  destruct s as [|c s]; [intros [= <-]; apply seg_refl|]. cbn [frac_part].
  destruct (N.eqb_spec c 46) as [->|_]; [|intros [= <-]; apply seg_refl].
  intros H. eapply seg_trans; [now apply seg_plain | now apply seg_digits1].
Qed.

Lemma seg_exp_part s rest : exp_part s = Some rest -> seg s rest.
Proof.
  destruct s as [|c s]; [intros [= <-]; apply seg_refl|]. cbn [exp_part].
  destruct ((c =? 101)%N || (c =? 69)%N) eqn:E; [|intros [= <-]; apply seg_refl].
  assert (Hc : is_plain c = true).
  { apply orb_true_iff in E. rewrite !N.eqb_eq in E. apply is_plain_ne; lia. }
  destruct s as [|g s']; [discriminate|].
  destruct ((g =? 43)%N || (g =? 45)%N) eqn:Eg; intros H.
  - assert (Hg : is_plain g = true).
    { apply orb_true_iff in Eg. rewrite !N.eqb_eq in Eg. apply is_plain_ne; lia. }
    eapply seg_trans; [now apply seg_plain|].
    eapply seg_trans; [now apply seg_plain | now apply seg_digits1].
  - eapply seg_trans; [now apply seg_plain | now apply seg_digits1].
Qed.

Lemma seg_number s rest : number s = Some rest -> seg s rest.
Proof.
  unfold number. intros H.
  destruct (int_part (opt_minus s)) as [s1|] eqn:E1; [|discriminate].
  destruct (frac_part s1) as [s2|] eqn:E2; [|discriminate].
  eapply seg_trans; [apply seg_opt_minus|].
  eapply seg_trans; [apply seg_int_part; exact E1|].
  eapply seg_trans; [apply seg_frac_part; exact E2 | now apply seg_exp_part].
Qed.

Lemma starts_with_split p s :
  starts_with p s = true -> s = p ++ drop (length p) s.
Proof.
  revert s. induction p as [|a p IH]; intros s H; [reflexivity|].
  destruct s as [|b s]; [discriminate|]. cbn [starts_with] in H.
  apply andb_true_iff in H as [Hab Hp]. apply N.eqb_eq in Hab. subst b.
  cbn [length drop app]. f_equal. now apply IH.
Qed.

Lemma seg_keyword p s :
  forallb is_plain p = true -> starts_with p s = true ->
  seg s (drop (length p) s).
Proof.
  intros Hp H. exists p. split; [now apply starts_with_split|].
  now apply passes_all_plain.
Qed.

Lemma seg_after_ws s d r : skip_ws s = d :: r -> seg s (d :: r).
Proof. intros E. rewrite <- E. apply seg_skip_ws. Qed.

(** The recogniser only accepts text over which the scan is balanced. *)
Lemma parse_sound fuel : forall m s rest,
  parse fuel m s = Some rest -> sound m s rest.
Proof.
  induction fuel as [|fuel IH]; intros m s rest H; [discriminate|].
  cbn [parse] in H. destruct m; cbn [sound].
  - (* a value *)
    destruct s as [|c s']; [discriminate|].
    destruct (N.eqb_spec c LBRACE) as [->|Hnb].
    { destruct (skip_ws s') as [|d r] eqn:Ews; [discriminate|].
      apply seg_after_ws in Ews.
      assert (Hbody : seg s' (RBRACE :: rest)).
      { destruct (N.eqb_spec d RBRACE) as [->|_].
        - injection H as <-. exact Ews.
        - apply IH in H. cbn [sound] in H. eapply seg_trans; eassumption. }
      split.
      - now apply (seg_group LBRACE).
      - intros c s'' [= <- <-] _. exact Hbody. }
    destruct (N.eqb_spec c LBRACKET) as [->|Hnk].
    { destruct (skip_ws s') as [|d r] eqn:Ews; [discriminate|].
      apply seg_after_ws in Ews.
      assert (Hbody : seg s' (RBRACKET :: rest)).
      { destruct (N.eqb_spec d RBRACKET) as [->|_].
        - injection H as <-. exact Ews.
        - apply IH in H. cbn [sound] in H. eapply seg_trans; eassumption. }
      split.
      - now apply (seg_group LBRACKET).
      - intros c s'' [= <- <-] _. exact Hbody. }
    split.
    + destruct (N.eqb_spec c DQUOTE) as [->|_]; [now apply seg_string|].
      destruct (starts_with (js "true") (c :: s')) eqn:Et.
      { injection H as <-. now apply (seg_keyword (js "true")). }
      destruct (starts_with (js "false") (c :: s')) eqn:Ef.
      { injection H as <-. now apply (seg_keyword (js "false")). }
      destruct (starts_with (js "null") (c :: s')) eqn:En.
      { injection H as <-. now apply (seg_keyword (js "null")). }
      now apply seg_number.
    + intros c0 s0 [= <- <-] Hop. unfold is_opener in Hop.
      apply orb_true_iff in Hop. rewrite !N.eqb_eq in Hop. tauto.
  - (* the members of an object *)
    destruct s as [|c s']; [discriminate|].
    destruct (N.eqb_spec c DQUOTE) as [->|_]; [|discriminate].
    destruct (string_tail s') as [s1|] eqn:Estr; [|discriminate].
    apply seg_string in Estr.
    destruct (skip_ws s1) as [|d s2] eqn:Ews1; [discriminate|].
    apply seg_after_ws in Ews1.
    destruct (N.eqb_spec d 58) as [->|_]; [|discriminate].
    destruct (parse fuel MValue (skip_ws s2)) as [s3|] eqn:Eval; [|discriminate].
    apply IH in Eval. cbn [sound] in Eval. destruct Eval as [Eval _].
    destruct (skip_ws s3) as [|e s4] eqn:Ews3; [discriminate|].
    apply seg_after_ws in Ews3.
    assert (Hkey : seg (DQUOTE :: s') (e :: s4)).
    { eapply seg_trans; [exact Estr|].
      eapply seg_trans; [exact Ews1|].
      eapply seg_trans; [now apply (seg_plain 58)|].
      eapply seg_trans; [apply seg_skip_ws|].
      eapply seg_trans; [exact Eval | exact Ews3]. }
    destruct (N.eqb_spec e 44) as [->|_].
    + apply IH in H. cbn [sound] in H.
      eapply seg_trans; [exact Hkey|].
      eapply seg_trans; [now apply (seg_plain 44)|].
      eapply seg_trans; [apply seg_skip_ws | exact H].
    + destruct (N.eqb_spec e RBRACE) as [->|_]; [|discriminate].
      injection H as <-. exact Hkey.
  - (* the elements of an array *)
    destruct (parse fuel MValue s) as [s1|] eqn:Eval; [|discriminate].
    apply IH in Eval. cbn [sound] in Eval. destruct Eval as [Eval _].
    destruct (skip_ws s1) as [|e s2] eqn:Ews; [discriminate|].
    apply seg_after_ws in Ews.
    assert (Helt : seg s (e :: s2)) by (eapply seg_trans; eassumption).
    destruct (N.eqb_spec e 44) as [->|_].
    + apply IH in H. cbn [sound] in H.
      eapply seg_trans; [exact Helt|].
      eapply seg_trans; [now apply (seg_plain 44)|].
      eapply seg_trans; [apply seg_skip_ws | exact H].
    + destruct (N.eqb_spec e RBRACKET) as [->|_]; [|discriminate].
      injection H as <-. exact Helt.
Qed.

(** On a well-formed literal followed by anything, the scan returns at the
    last code unit of the literal. *)
Lemma scan_literal X r i :
  json_literal X = true ->
  exists sc X',
    X = sc :: X' /\ is_opener sc = true
    /\ scan sc (closer_of sc) 0 false false i (X ++ r) = Some (i + length X - 1).
Proof.
  unfold json_literal. destruct X as [|sc X']; [discriminate|].
  intros H. apply andb_true_iff in H as [Hop Hparse].
  apply bool_decide_eq_true_1 in Hparse. apply parse_sound in Hparse.
  cbn [sound] in Hparse. destruct Hparse as [_ Hshape].
  destruct (Hshape sc X' eq_refl Hop) as (b & -> & Hb).
  exists sc, (b ++ [closer_of sc]). split; [reflexivity|]. split; [exact Hop|].
  destruct (opener_cases sc Hop) as (Hcase & E1 & E2 & E3).
  cbn [app scan]. rewrite E1, E2, N.eqb_refl. rewrite <- app_assoc.
  rewrite (Hb sc (closer_of sc)) by (auto using delims_closer; lia).
  cbn [app scan].
  assert (E4 : (closer_of sc =? BACKSLASH)%N = false
               /\ (closer_of sc =? DQUOTE)%N = false
               /\ (closer_of sc =? sc)%N = false).
  { destruct Hcase as [-> | ->]; repeat split; reflexivity. }
  destruct E4 as (E4 & E5 & E6). rewrite E4, E5, E6, N.eqb_refl.
  cbn. f_equal. rewrite length_app. cbn [length]. lia.
Qed.

(** *** Trimming and fence stripping of a fenced block in prose *)

Lemma strip_bom_app before c r :
  c <> BOM -> strip_bom (before ++ c :: r) = strip_bom before ++ c :: r.
Proof.
  intros Hc. destruct before as [|b before]; cbn [app strip_bom].
  - now destruct (N.eqb_spec c BOM).
  - now destruct (b =? BOM)%N.
Qed.

Lemma trim_start_app a c r :
  is_space c = false -> trim_start (a ++ c :: r) = trim_start a ++ c :: r.
Proof.
  intros Hc. induction a as [|x a IH]; cbn [app trim_start].
  - now rewrite Hc.
  - now destruct (is_space x).
Qed.

Lemma trim_end_app a c post :
  is_space c = false -> trim_end (a ++ c :: post) = a ++ c :: trim_end post.
Proof.
  intros Hc. unfold trim_end.
  rewrite reverse_app, reverse_cons, <- app_assoc. cbn [app].
  rewrite trim_start_app by assumption.
  rewrite reverse_app, reverse_cons, reverse_involutive, <- app_assoc.
  reflexivity.
Qed.

Lemma forallb_strip_bom (P : N -> bool) s :
  forallb P s = true -> forallb P (strip_bom s) = true.
Proof.
  destruct s as [|c s]; [auto|]. cbn [strip_bom forallb].
  intros H. apply andb_true_iff in H as [Hc Hs].
  destruct (c =? BOM)%N; [exact Hs|]. cbn [forallb]. now rewrite Hc, Hs.
Qed.

Lemma forallb_trim_start (P : N -> bool) s :
  forallb P s = true -> forallb P (trim_start s) = true.
Proof.
  induction s as [|c s IH]; [auto|]. cbn [trim_start forallb].
  intros H. destruct (is_space c); [|exact H].
  apply andb_true_iff in H as [_ Hs]. now apply IH.
Qed.

Lemma fence_led_open : fence_led match_fence_open.
Proof. intros s H. unfold match_fence_open. now rewrite H. Qed.

Lemma fence_led_plain : fence_led match_fence.
Proof. intros s H. unfold match_fence. now rewrite H. Qed.

Lemma replace_all_keep m c t :
  fence_led m -> c <> BACKTICK ->
  replace_all m 0 (c :: t) = c :: replace_all m 0 t.
Proof.
  intros Hm Hc. cbn [replace_all]. rewrite Hm; [reflexivity|].
  unfold fence. cbn [starts_with].
  destruct (N.eqb_spec BACKTICK c) as [E|_]; [congruence | reflexivity].
Qed.

Lemma replace_all_no_backtick m B t :
  fence_led m -> no_backtick B = true ->
  replace_all m 0 (B ++ t) = B ++ replace_all m 0 t.
Proof.
  intros Hm. induction B as [|c B IH]; [reflexivity|].
  cbn [no_backtick forallb]. intros H. apply andb_true_iff in H as [Hc HB].
  cbn [app]. rewrite replace_all_keep, IH; auto.
  intros ->. discriminate Hc.
Qed.





Section WithParser.
Variable JSON_parse_ok : jsstring -> bool.

(** C7, amended. Let [cleaned] be the input after removal of a
    byte-order mark, trimming and fence stripping, and suppose the text
    parses as a whole neither before nor after fence stripping.  When
    [cleaned] contains no opening brace or bracket, [extractValidJson] fails
    with the no-JSON-found error.  When the first opening brace or bracket
    of [cleaned] has a nesting depth that never returns to zero,
    [extractValidJson] fails with the unmatched-brackets error (and so
    returns no span). *)
Theorem C7_extraction_failures text :
  let trimmed := trim (strip_bom text) in
  let cleaned := strip_fences trimmed in
  JSON_parse_ok trimmed = false ->
  JSON_parse_ok (trim cleaned) = false ->
  (no_opener cleaned = true ->
   extractValidJson JSON_parse_ok text = Thrown NoJsonFound)
  /\ (forall pre sc rest,
        cleaned = pre ++ sc :: rest ->
        no_opener pre = true -> is_opener sc = true ->
        never_zero sc (sc :: rest) = true ->
        extractValidJson JSON_parse_ok text = Thrown UnmatchedBrackets).
Proof.
  intros trimmed cleaned Hp1 Hp2. unfold extractValidJson.
  fold trimmed. rewrite Hp1. fold cleaned. rewrite Hp2. split.
  - intros Hno. now rewrite jsonStart_none.
  - intros pre sc rest Hcl Hpre Hsc Hnz.
    rewrite Hcl, jsonStart_first, nth_middle, drop_app_length by assumption.
    destruct (opener_cases sc Hsc) as (Hcases & _).
    assert (Hec : (if (sc =? LBRACE)%N then RBRACE else RBRACKET) = closer_of sc)
      by reflexivity.
    rewrite Hec, never_zero_scan by assumption. reflexivity.
Qed.


End WithParser.



(** C7, as stated, on two inputs that parse neither before nor after fence
    stripping.  The first is [```json {], a line feed and [abc]: its opening
    brace is never closed, but the fence pattern removes the brace with the
    rest of its line, and the failure is the no-JSON-found error, not the
    unmatched-brackets one.  The second is [[1, {"a": 2]]: its opening brace
    is never closed, but the scan counts brackets only and returns the whole
    text, which is not JSON. *)
Lemma C7_unclosed_brace_other_outcomes :
  (let text := cut_off_response in
   (exists pre rest,
      text = pre ++ LBRACE :: rest /\ no_opener pre = true
      /\ never_zero LBRACE (LBRACE :: rest) = true)
   /\ json_text (trim (strip_bom text)) = false
   /\ json_text (trim (strip_fences (trim (strip_bom text)))) = false
   /\ extractValidJson json_text text = Thrown NoJsonFound)
  /\ (let text := mixed_delimiters_response in
      (exists pre rest,
         text = pre ++ LBRACE :: rest
         /\ never_zero LBRACE (LBRACE :: rest) = true)
      /\ json_text (trim (strip_bom text)) = false
      /\ json_text (trim (strip_fences (trim (strip_bom text)))) = false
      /\ extractValidJson json_text text = Returned text).
Proof.
  cbv zeta. split; split.
  - exists (fence ++ js "json "), ([LF] ++ js "abc"). now vm_compute.
  - repeat split; vm_compute; reflexivity.
  - exists (js "[1, "), (quoted "a" ++ js ": 2]"). now vm_compute.
  - repeat split; vm_compute; reflexivity.
Qed.

Lemma C7_extraction_failures_witness :
  let apology := js "  I could not produce a result.  " in
  let truncated := prose_before ++ js "{" ++ quoted "a" ++ js ": [1, 2" in
  let cleaned text := strip_fences (trim (strip_bom text)) in
  (json_text (trim (strip_bom apology)) = false
   /\ json_text (trim (cleaned apology)) = false
   /\ no_opener (cleaned apology) = true
   /\ extractValidJson json_text apology = Thrown NoJsonFound)
  /\ (json_text (trim (strip_bom truncated)) = false
      /\ json_text (trim (cleaned truncated)) = false
      /\ cleaned truncated
         = prose_before ++ LBRACE :: quoted "a" ++ js ": [1, 2"
      /\ no_opener prose_before = true /\ is_opener LBRACE = true
      /\ never_zero LBRACE (LBRACE :: quoted "a" ++ js ": [1, 2") = true
      /\ extractValidJson json_text truncated = Thrown UnmatchedBrackets).
Proof.
  intros apology truncated cleaned. split.
  - assert (H1 : json_text (trim (strip_bom apology)) = false)
      by (vm_compute; reflexivity).
    assert (H2 : json_text (trim (cleaned apology)) = false)
      by (vm_compute; reflexivity).
    assert (H3 : no_opener (cleaned apology) = true) by (vm_compute; reflexivity).
    repeat (split; [assumption|]).
    exact (proj1 (C7_extraction_failures json_text apology H1 H2) H3).
  - assert (H1 : json_text (trim (strip_bom truncated)) = false)
      by (vm_compute; reflexivity).
    assert (H2 : json_text (trim (cleaned truncated)) = false)
      by (vm_compute; reflexivity).
    assert (H3 : cleaned truncated
                 = prose_before ++ LBRACE :: quoted "a" ++ js ": [1, 2")
      by (vm_compute; reflexivity).
    assert (H4 : no_opener prose_before = true) by (vm_compute; reflexivity).
    assert (H5 : is_opener LBRACE = true) by reflexivity.
    assert (H6 : never_zero LBRACE (LBRACE :: quoted "a" ++ js ": [1, 2") = true)
      by (vm_compute; reflexivity).
    repeat (split; [assumption|]).
    exact (proj2 (C7_extraction_failures json_text truncated H1 H2)
             _ _ _ H3 H4 H5 H6).
Defined.

End ExtractProps.

(** * Further properties of the modelled code *)

(** ** Conversation branches *)

Module BranchProps.
Import FlowGraph FlowSpec FlowProps BranchSpec.

Lemma branch_step_inv edges branches cur node :
  let '(branches', cur') := branch_step edges (branches, cur) node in
  concat branches' ++ cur' = concat branches ++ cur ++ [id node]
  /\ (Forall (fun b => b <> []) branches -> Forall (fun b => b <> []) branches')
  /\ cur' <> [].
Proof.
  unfold branch_step.
  destruct (bool_decide (type node = question));
    [destruct (List.find _ edges) as [e|];
       [destruct (bool_decide (etype e = topic_shift) && (0 <? length cur)%nat) eqn:E|]|].
  2-4: (split; [now rewrite app_assoc | split; [auto | now destruct cur]]).
  apply andb_true_iff in E as [_ E]. apply Nat.ltb_lt in E.
  split; [|split].
  - rewrite concat_app. cbn [concat app]. now rewrite app_nil_r, <- app_assoc.
  - intros H. apply Forall_app. split; [exact H|].
    constructor; [|constructor]. intros ->. cbn in E. lia.
  - discriminate.
Qed.

Lemma branch_fold_inv edges nodes : forall branches cur,
  let '(branches', cur') := foldl (branch_step edges) (branches, cur) nodes in
  concat branches' ++ cur' = concat branches ++ cur ++ (id <$> nodes)
  /\ (Forall (fun b => b <> []) branches -> Forall (fun b => b <> []) branches')
  /\ (cur <> [] \/ nodes <> [] -> cur' <> []).
Proof.
  induction nodes as [|node nodes IH]; intros branches cur.
  - cbn. rewrite app_nil_r. repeat split; auto. intros [H|H]; congruence.
  - cbn [foldl].
    pose proof (branch_step_inv edges branches cur node) as Hs.
    destruct (branch_step edges (branches, cur) node) as [b1 c1].
    destruct Hs as (Hcat & Hne & Hc1).
    specialize (IH b1 c1).
    destruct (foldl (branch_step edges) (b1, c1) nodes) as [b2 c2].
    destruct IH as (Hcat' & Hne' & Hc2).
    split; [|split].
    + rewrite Hcat', app_assoc, Hcat. cbn [fmap list_fmap].
      rewrite <- !app_assoc. reflexivity.
    + auto.
    + intros _. apply Hc2. now left.
Qed.

(** The branches partition the node ids: concatenated, they give the ids
    of the nodes in their order, each once. *)
Theorem branches_partition_nodes nodes edges :
  concat (identifyConversationBranches nodes edges) = id <$> nodes.
Proof.
  unfold identifyConversationBranches.
  pose proof (branch_fold_inv edges nodes [] []) as H.
  destruct (foldl (branch_step edges) ([], []) nodes) as [branches cur].
  destruct H as (Hcat & _ & _). cbn in Hcat.
  destruct (0 <? length cur)%nat eqn:E.
  - rewrite concat_app. cbn. now rewrite app_nil_r.
  - apply Nat.ltb_ge in E. destruct cur; [|cbn in E; lia].
    now rewrite app_nil_r in Hcat.
Qed.

(** No branch is empty, and there is no branch exactly when there is no
    node. *)
Theorem branches_non_empty nodes edges :
  Forall (fun b => b <> []) (identifyConversationBranches nodes edges)
  /\ (identifyConversationBranches nodes edges = [] <-> nodes = []).
Proof.
  split.
  - unfold identifyConversationBranches.
    pose proof (branch_fold_inv edges nodes [] []) as H.
    destruct (foldl (branch_step edges) ([], []) nodes) as [branches cur].
    destruct H as (_ & Hne & _). specialize (Hne (Forall_nil _)).
    destruct (0 <? length cur)%nat eqn:E; [|exact Hne].
    apply Forall_app. split; [exact Hne|].
    constructor; [|constructor]. intros ->. discriminate E.
  - split.
    + intros Hnil. destruct nodes as [|nd nodes]; [reflexivity|]. exfalso.
      revert Hnil. unfold identifyConversationBranches.
      pose proof (branch_fold_inv edges (nd :: nodes) [] []) as H.
      destruct (foldl (branch_step edges) ([], []) (nd :: nodes))
        as [branches cur].
      destruct H as (_ & _ & Hcur).
      assert (Hc : cur <> []) by (apply Hcur; right; discriminate).
      destruct cur as [|c cur]; [congruence|]. cbn [length Nat.ltb Nat.leb].
      destruct branches; discriminate.
    + intros ->. reflexivity.
Qed.

(** *** Number of branches *)

Lemma branch_fold_count edges nodes : forall branches cur,
  cur <> [] ->
  let '(branches', cur') := foldl (branch_step edges) (branches, cur) nodes in
  length branches' = length branches + length (List.filter (starts_branch edges) nodes)
  /\ cur' <> [].
Proof.
  induction nodes as [|node nodes IH]; intros branches cur Hcur.
  - cbn. split; [lia | assumption].
  - cbn [foldl List.filter].
    assert (Hstep : exists b1 c1,
              branch_step edges (branches, cur) node = (b1, c1) /\ c1 <> []
              /\ length b1 = length branches
                              + (if starts_branch edges node then 1 else 0)).
    { unfold branch_step, starts_branch.
      assert (Hpos : (0 <? length cur)%nat = true)
        by (destruct cur; [congruence | reflexivity]).
      rewrite Hpos.
      destruct (bool_decide (type node = question)); cbn [andb];
        [destruct (List.find _ edges) as [e|];
           [destruct (bool_decide (etype e = topic_shift))|]|];
        cbn [andb]; eexists _, _; (split; [reflexivity|]);
        (split; [try discriminate; now destruct cur
                | rewrite ?length_app; cbn [length]; lia]). }
    destruct Hstep as (b1 & c1 & -> & Hc1 & Hlen).
    specialize (IH b1 c1 Hc1).
    destruct (foldl (branch_step edges) (b1, c1) nodes) as [b2 c2].
    destruct IH as [IH Hc2]. split; [|assumption].
    rewrite IH, Hlen. destruct (starts_branch edges node); cbn [length]; lia.
Qed.

Lemma branches_count nodes edges :
  length (identifyConversationBranches nodes edges)
  = match nodes with
    | [] => 0
    | _ :: rest => 1 + length (List.filter (starts_branch edges) rest)
    end.
Proof.
  unfold identifyConversationBranches.
  destruct nodes as [|node rest]; [reflexivity|]. cbn [foldl].
  assert (Hfirst : branch_step edges ([], []) node = ([], [id node])).
  { unfold branch_step. cbn [length Nat.ltb Nat.leb].
    destruct (bool_decide (type node = question)); [|reflexivity].
    destruct (List.find _ edges) as [e|]; [|reflexivity].
    now destruct (bool_decide (etype e = topic_shift)). }
  rewrite Hfirst.
  pose proof (branch_fold_count edges rest [] [id node] ltac:(discriminate)) as H.
  destruct (foldl (branch_step edges) ([], [id node]) rest) as [b c].
  destruct H as [Hlen Hc].
  assert (Hpos : (0 <? length c)%nat = true)
    by (destruct c; [congruence | reflexivity]).
  rewrite Hpos, length_app, Hlen. cbn [length]. lia.
Qed.

(** *** Shape of the node list built by [buildFlowGraph] *)

Section BuiltGraph.
Variable toLowerCase : jsstring -> jsstring.

Lemma node_fold_shape questions answers n :
  n <= length questions ->
  (fun nd => (id nd, type nd))
    <$> (foldl (node_step questions answers) ([], []) (seq 0 n)).1
  = concat (exchange_shape (length answers) <$> seq 0 n).
Proof.
  induction n as [|n IH]; intros Hn; [reflexivity|].
  rewrite seq_S, foldl_app, fmap_app, concat_app. cbn [foldl Nat.add].
  specialize (IH ltac:(lia)).
  destruct (foldl _ _ (seq 0 n)) as [nodes edges]. cbn [fst] in IH.
  unfold node_step.
  destruct (lookup_lt_is_Some_2 questions n ltac:(lia)) as [qn ->].
  cbn [fmap list_fmap concat]. rewrite app_nil_r. unfold exchange_shape.
  destruct (answers !! n) as [an|] eqn:Han; cbn [fst].
  - apply lookup_lt_Some in Han. apply Nat.ltb_lt in Han. rewrite Han.
    rewrite !fmap_app, IH, <- app_assoc. reflexivity.
  - apply lookup_ge_None_1 in Han. apply Nat.ltb_ge in Han. rewrite Han.
    rewrite fmap_app, IH. reflexivity.
Qed.

Lemma buildFlowGraph_shape questions answers :
  (fun nd => (id nd, type nd)) <$> (buildFlowGraph toLowerCase questions answers).1
  = concat (exchange_shape (length answers) <$> seq 0 (length questions)).
Proof.
  unfold buildFlowGraph.
  pose proof (node_fold_shape questions answers (length questions) ltac:(lia)) as H.
  destruct (foldl _ _ (seq 0 (length questions))) as [nodes edges]. exact H.
Qed.

Lemma shape_ids m n :
  (concat (exchange_shape m <$> seq 0 n)).*1
  = concat ((fun i => q_id i :: (if (i <? m)%nat then [a_id i] else []))
              <$> seq 0 n).
Proof.
  induction n as [|n IH]; [reflexivity|].
  rewrite seq_S, !fmap_app, !concat_app, fmap_app, IH.
  cbn [fmap list_fmap concat Nat.add]. unfold exchange_shape.
  destruct (n <? m)%nat; reflexivity.
Qed.

(** The graph has one node per question and one per answered question. *)
Lemma shape_length m n :
  length (concat (exchange_shape m <$> seq 0 n)) = n + (n `min` m).
Proof.
  induction n as [|n IH]; [reflexivity|].
  rewrite seq_S, fmap_app, concat_app, length_app, IH.
  cbn [fmap list_fmap concat Nat.add]. unfold exchange_shape.
  destruct (Nat.ltb_spec n m); cbn [length app]; lia.
Qed.

Lemma shape_ids_elem m n x :
  x ∈ concat ((fun i => q_id i :: (if (i <? m)%nat then [a_id i] else []))
                <$> seq 0 n)
  <-> exists i, i < n /\ (x = q_id i \/ (i < m /\ x = a_id i)).
Proof.
  induction n as [|n IH].
  - cbn. split; [intros H; now apply elem_of_nil in H | intros (i & Hi & _); lia].
  - rewrite seq_S, fmap_app, concat_app, elem_of_app, IH.
    cbn [fmap list_fmap concat Nat.add]. rewrite app_nil_r. split.
    + intros [(i & Hi & H)|H]; [exists i; split; [lia | exact H]|].
      exists n. split; [lia|].
      destruct (Nat.ltb_spec n m).
      * apply elem_of_cons in H as [->|H]; [now left | right].
        apply list_elem_of_singleton in H. auto.
      * apply list_elem_of_singleton in H. now left.
    + intros (i & Hi & H). destruct (decide (i = n)) as [->|Hne].
      * right. destruct H as [->|[Hm ->]]; [now left|].
        apply Nat.ltb_lt in Hm. rewrite Hm. right. now left.
      * left. exists i. split; [lia | exact H].
Qed.

Lemma shape_ids_NoDup m n :
  NoDup (concat ((fun i => q_id i :: (if (i <? m)%nat then [a_id i] else []))
                   <$> seq 0 n)).
Proof.
  induction n as [|n IH]; [constructor|].
  rewrite seq_S, fmap_app, concat_app.
  cbn [fmap list_fmap concat Nat.add]. rewrite app_nil_r.
  apply list.NoDup_app. split; [exact IH|]. split.
  - intros x Hx Hnew. apply shape_ids_elem in Hx as (i & Hi & Hx).
    assert (Hn : x = q_id n \/ x = a_id n).
    { destruct (n <? m)%nat;
        repeat (apply elem_of_cons in Hnew as [->|Hnew]; auto);
        now apply elem_of_nil in Hnew. }
    destruct Hx as [->|[_ ->]], Hn as [Hn|Hn];
      first [ apply q_id_inj in Hn; lia
            | apply a_id_inj in Hn; lia
            | now apply a_id_ne_q_id in Hn
            | symmetry in Hn; now apply a_id_ne_q_id in Hn ].
  - destruct (n <? m)%nat; [|apply NoDup_singleton].
    apply list.NoDup_cons. split; [|apply NoDup_singleton].
    intros H. apply list_elem_of_singleton in H. symmetry in H.
    now apply a_id_ne_q_id in H.
Qed.

Lemma built_ids questions answers :
  id <$> (buildFlowGraph toLowerCase questions answers).1
  = concat ((fun i => q_id i
                      :: (if (i <? length answers)%nat then [a_id i] else []))
              <$> seq 0 (length questions)).
Proof.
  rewrite <- shape_ids, <- buildFlowGraph_shape.
  rewrite <- list_fmap_compose. reflexivity.
Qed.

(** [buildFlowGraph] makes one node per question and one per answered
    question, and no two nodes share an id. *)
Theorem built_nodes_distinct questions answers :
  let nodes := (buildFlowGraph toLowerCase questions answers).1 in
  length nodes = length questions + (length questions `min` length answers)
  /\ NoDup (id <$> nodes).
Proof.
  cbv zeta. split.
  - rewrite <- (length_fmap (fun nd => (id nd, type nd))), buildFlowGraph_shape.
    apply shape_length.
  - rewrite built_ids. apply shape_ids_NoDup.
Qed.

(** When every question has an answer, both ends of every edge are ids of
    nodes of the graph. *)
Theorem built_graph_closed questions answers :
  length questions <= length answers ->
  let '(nodes, edges) := buildFlowGraph toLowerCase questions answers in
  Forall (fun e => from e ∈ id <$> nodes /\ to e ∈ id <$> nodes) edges.
Proof.
  intros HM.
  pose proof (buildFlowGraph_edges toLowerCase questions answers) as He.
  pose proof (built_ids questions answers) as Hid.
  destruct (buildFlowGraph toLowerCase questions answers) as [nodes edges].
  cbn [fst snd] in *. rewrite He, Hid.
  apply Forall_app. split; apply Forall_fmap, Forall_forall; intros i Hi;
    apply in_seq in Hi; unfold compose; cbn [direct_edge continuity_edge from to];
    rewrite !shape_ids_elem.
  - split; exists i; (split; [lia|]); [now left | right; split; [lia | reflexivity]].
  - split; [exists i | exists (i + 1)]; (split; [lia|]);
      [right; split; [lia | reflexivity] | now left].
Qed.

(** *** Branches of a built graph *)

Lemma find_app {A} (f : A -> bool) l1 l2 :
  List.find f (l1 ++ l2)
  = match List.find f l1 with Some x => Some x | None => List.find f l2 end.
Proof.
  induction l1 as [|x l1 IH]; [reflexivity|]. cbn. now destruct (f x).
Qed.

Lemma find_direct_none j l :
  List.find (fun e => eqb (to e) (q_id j)) (direct_edge <$> l) = None.
Proof.
  induction l as [|i l IH]; [reflexivity|]. cbn [fmap list_fmap List.find].
  cbn [direct_edge to]. unfold eqb at 1.
  rewrite bool_decide_eq_false_2 by apply a_id_ne_q_id. exact IH.
Qed.

Lemma find_continuity questions j n :
  List.find (fun e => eqb (to e) (q_id j))
            (continuity_edge toLowerCase questions <$> seq 0 n)
  = if decide (1 <= j <= n)
    then Some (continuity_edge toLowerCase questions (j - 1)) else None.
Proof.
  induction n as [|n IH].
  - cbn. destruct (decide _); [lia | reflexivity].
  - rewrite seq_S, fmap_app, find_app, IH. cbn [Nat.add].
    destruct (decide (1 <= j <= n)).
    + rewrite decide_True by lia. reflexivity.
    + cbn [fmap list_fmap List.find]. cbn [continuity_edge to]. unfold eqb.
      destruct (decide (j = n + 1)) as [->|Hne].
      * rewrite bool_decide_eq_true_2 by reflexivity.
        rewrite decide_True by lia. do 2 f_equal. lia.
      * rewrite bool_decide_eq_false_2
          by (intros H; apply q_id_inj in H; lia).
        rewrite decide_False by lia. reflexivity.
Qed.

Lemma filter_fmap_length {A B} (f : A -> B) (g : B -> bool) l :
  length (List.filter (fun x => g (f x)) l) = length (List.filter g (f <$> l)).
Proof.
  induction l as [|x l IH]; [reflexivity|]. cbn.
  destruct (g (f x)); cbn; now rewrite IH.
Qed.

Lemma shape_branch_count questions K n :
  let edges := (direct_edge <$> seq 0 K)
               ++ (continuity_edge toLowerCase questions
                     <$> seq 0 (length questions - 1)) in
  forall m, n <= length questions ->
  length (List.filter (starts_branch_at edges)
                      (concat (exchange_shape m <$> seq 0 n)))
  = length (List.filter is_topic_shift
                        (continuity_edge toLowerCase questions <$> seq 0 (n - 1))).
Proof.
  intros edges m. induction n as [|n IH]; intros Hn; [reflexivity|].
  specialize (IH ltac:(lia)).
  rewrite seq_S, fmap_app, concat_app, List.filter_app, length_app, IH.
  cbn [fmap list_fmap concat Nat.add]. rewrite app_nil_r.
  assert (Hq : starts_branch_at edges (q_id n, question)
               = if decide (1 <= n)
                 then is_topic_shift (continuity_edge toLowerCase questions (n - 1))
                 else false).
  { unfold starts_branch_at, edges. cbn [fst snd].
    rewrite find_app, find_direct_none, find_continuity.
    destruct (decide (1 <= n)); [rewrite decide_True by lia | rewrite decide_False by lia];
      reflexivity. }
  assert (Ha : starts_branch_at edges (a_id n, answer) = false) by reflexivity.
  assert (Hexch : length (List.filter (starts_branch_at edges) (exchange_shape m n))
                  = if starts_branch_at edges (q_id n, question) then 1 else 0).
  { unfold exchange_shape. cbn [List.filter].
    destruct (n <? m)%nat; cbn [List.filter]; rewrite ?Ha;
      destruct (starts_branch_at edges (q_id n, question)); reflexivity. }
  rewrite Hexch, Hq. clear Hexch Hq Ha IH.
  destruct n as [|n]; [reflexivity|].
  rewrite decide_True by lia.
  replace (S (S n) - 1) with (S n) by lia. replace (S n - 1) with n by lia.
  rewrite seq_S, fmap_app, List.filter_app, length_app.
  cbn [fmap list_fmap List.filter Nat.add].
  destruct (is_topic_shift (continuity_edge toLowerCase questions n)); reflexivity.
Qed.

(** The branches of the graph built from a non-empty list of questions:
    one, plus one per topic-shift edge between consecutive questions. *)
Theorem built_graph_branches questions answers :
  let '(nodes, edges) := buildFlowGraph toLowerCase questions answers in
  length (identifyConversationBranches nodes edges)
  = if decide (questions = []) then 0
    else 1 + length (List.filter is_topic_shift (continuity_edges edges)).
Proof.
  pose proof (buildFlowGraph_edges toLowerCase questions answers) as He.
  pose proof (buildFlowGraph_continuity toLowerCase questions answers) as Hc.
  pose proof (buildFlowGraph_shape questions answers) as Hs.
  destruct (buildFlowGraph toLowerCase questions answers) as [nodes edges].
  cbn [fst snd] in *.
  rewrite branches_count, Hc.
  destruct questions as [|q0 questions].
  - destruct nodes; [reflexivity | discriminate].
  - rewrite decide_False by discriminate.
    pose proof (shape_branch_count (q0 :: questions)
                  (length (q0 :: questions) `min` length answers)
                  (length (q0 :: questions)) (length answers) (le_n _)) as Hcount.
    cbv zeta in Hcount. rewrite <- He, <- Hs in Hcount.
    rewrite <- (filter_fmap_length (fun nd => (id nd, type nd))
                  (starts_branch_at edges)) in Hcount.
    change (fun x => starts_branch_at edges (id x, type x))
      with (starts_branch edges) in Hcount.
    destruct nodes as [|node rest]; [discriminate Hs|].
    cbn [List.filter] in Hcount.
    assert (Hfirst : starts_branch edges node = false).
    { change (starts_branch edges node)
        with (starts_branch_at edges (id node, type node)).
      cbn [length seq fmap list_fmap concat exchange_shape app] in Hs.
      injection Hs as -> _. unfold starts_branch_at. cbn [fst snd].
      rewrite He, find_app, find_direct_none, find_continuity.
      rewrite decide_False by lia. apply andb_false_r. }
    rewrite Hfirst in Hcount. now rewrite Hcount.
Qed.

End BuiltGraph.

Lemma built_graph_closed_witness :
  length scenario_questions <= length scenario_answers
  /\ let '(nodes, edges) :=
       buildFlowGraph ascii_toLowerCase scenario_questions scenario_answers in
     Forall (fun e => from e ∈ id <$> nodes /\ to e ∈ id <$> nodes) edges.
Proof.
  split; [cbn; lia|].
  apply (built_graph_closed ascii_toLowerCase scenario_questions scenario_answers).
  cbn; lia.
Defined.

End BranchProps.

(** ** Logical connection score *)

Module ScoreProps.
Import FlowGraph FlowSpec FlowProps.
Local Open Scope Q_scope.






Section BuiltScore.
Variable toLowerCase : jsstring -> jsstring.



End BuiltScore.


End ScoreProps.

(** ** Training recommendations: ratings, strengths and recommendations *)

Module RatingProps.
Import Training TrainingSpec RatingSpec NumProps TrainingProps.
Local Open Scope Q_scope.

Lemma Qgeb_ge x y : Qgeb x y = true <-> y <= x.
Proof. unfold Qgeb. apply Qle_bool_iff. Qed.

Lemma Qgeb_lt x y : Qgeb x y = false <-> x < y.
Proof.
  unfold Qgeb. split.
  - intros H. apply Qnot_le_lt. intros Hle. apply Qle_bool_iff in Hle. congruence.
  - intros H. destruct (Qle_bool y x) eqn:E; [|reflexivity].
    apply Qle_bool_iff in E. now apply Qlt_not_le in H.
Qed.

Lemma output_sections inp :
  let out := generateTrainingRecommendations inp in
  recommendations out
  = (jd_section inp).1.1 ++ (flow_section inp).1.1
    ++ missed_section inp ++ sentiment_section inp
  /\ strengthAreas out = (jd_section inp).2 ++ (flow_section inp).2
  /\ overallRating out
     = (if Qgeb (mean_score inp) 85 then excellent
        else if Qgeb (mean_score inp) 70 then good
        else if Qgeb (mean_score inp) 50 then needs_improvement
        else poor).
Proof.
  cbv zeta. unfold generateTrainingRecommendations, mean_score.
  destruct (jd_section inp) as [[recs1 gaps1] strengths1].
  destruct (flow_section inp) as [[recs2 gaps2] strengths2].
  cbn [recommendations strengthAreas overallRating fst snd].
  repeat split.
  assert (E : (0 + or_zero (jd_overallScore inp)
               + or_zero (flow_continuityScore inp)
               + or_zero (recruiter_overallScore inp) * 10) / 3
              == (or_zero (jd_overallScore inp)
                  + or_zero (flow_continuityScore inp)
                  + or_zero (recruiter_overallScore inp) * 10) / 3) by field.
  unfold Qgeb. now rewrite !E.
Qed.

(** The rating in terms of the mean score. *)
Lemma rating_rank_spec inp :
  let r := rating_rank (overallRating (generateTrainingRecommendations inp)) in
  let m := mean_score inp in
  (85 <= m /\ r = 3%nat) \/ (70 <= m < 85 /\ r = 2%nat)
  \/ (50 <= m < 70 /\ r = 1%nat) \/ (m < 50 /\ r = 0%nat).
Proof.
  cbv zeta. destruct (output_sections inp) as (_ & _ & ->).
  destruct (Qgeb (mean_score inp) 85) eqn:E1;
    [apply Qgeb_ge in E1; left; auto | apply Qgeb_lt in E1].
  destruct (Qgeb (mean_score inp) 70) eqn:E2;
    [apply Qgeb_ge in E2; right; left; auto | apply Qgeb_lt in E2].
  destruct (Qgeb (mean_score inp) 50) eqn:E3;
    [apply Qgeb_ge in E3; right; right; left; auto | apply Qgeb_lt in E3].
  right; right; right; auto.
Qed.

(** Raising scores never lowers the rating. *)
Theorem rating_monotone a b :
  scores_le a b ->
  (rating_rank (overallRating (generateTrainingRecommendations a))
   <= rating_rank (overallRating (generateTrainingRecommendations b)))%nat.
Proof.
  intros (H1 & H2 & H3).
  assert (Hm : mean_score a <= mean_score b).
  { unfold mean_score. apply Qle_shift_div_l; [lra|].
    set (sb := _ + _ + _ * 10).
    assert (E : sb / 3 * 3 == sb) by field. subst sb. lra. }
  destruct (rating_rank_spec a) as [[? ->]|[[? ->]|[[? ->]|[? ->]]]];
    destruct (rating_rank_spec b) as [[? ->]|[[? ->]|[[? ->]|[? ->]]]];
    try lia; lra.
Qed.

Lemma rating_monotone_witness :
  scores_le low_inputs below_target_inputs
  /\ (rating_rank (overallRating (generateTrainingRecommendations low_inputs))
      <= rating_rank (overallRating (generateTrainingRecommendations below_target_inputs)))%nat.
Proof.
  assert (H : scores_le low_inputs below_target_inputs)
    by (unfold scores_le; cbn; lra).
  split; [exact H|]. exact (rating_monotone low_inputs below_target_inputs H).
Defined.

(** A missing score caps the rating: when one of the three scores is
    missing and the others are within their scales, the rating is poor or
    needs_improvement. *)
Theorem missing_score_caps_rating inp :
  within_scales inp ->
  jd_overallScore inp = None \/ flow_continuityScore inp = None
  \/ recruiter_overallScore inp = None ->
  (rating_rank (overallRating (generateTrainingRecommendations inp)) <= 1)%nat.
Proof.
  intros (H1 & H2 & H3) Hmiss.
  assert (Hm : mean_score inp < 70).
  { unfold mean_score. apply Qlt_shift_div_r; [lra|].
    destruct Hmiss as [E|[E|E]]; rewrite E in *; cbn [or_zero default from_option id] in *; lra. }
  destruct (rating_rank_spec inp) as [[? ->]|[[? ->]|[[? ->]|[? ->]]]]; lia || lra.
Qed.

Lemma missing_score_caps_rating_witness :
  let inp := {| jd_overallScore := None; flow_continuityScore := Some 100;
                recruiter_overallScore := Some 10; missed_length := None |} in
  within_scales inp
  /\ (jd_overallScore inp = None \/ flow_continuityScore inp = None
      \/ recruiter_overallScore inp = None)
  /\ (rating_rank (overallRating (generateTrainingRecommendations inp)) <= 1)%nat.
Proof.
  intros inp.
  assert (H1 : within_scales inp) by (unfold within_scales; cbn; lra).
  assert (H2 : jd_overallScore inp = None \/ flow_continuityScore inp = None
               \/ recruiter_overallScore inp = None) by (left; reflexivity).
  split; [exact H1|]. split; [exact H2|].
  exact (missing_score_caps_rating inp H1 H2).
Defined.

(** Every gap entry has a positive gap: more than 20 points for JD
    Relevance and more than 15 for Flow Continuity.  Its severity is
    critical exactly when the gap exceeds 40 (JD Relevance) or 35 (Flow
    Continuity), moderate otherwise, and never minor. *)
Theorem gap_entries_positive inp :
  Forall (fun g =>
            gap g == targetScore g - currentScore g
            /\ severity g <> minor
            /\ ((metric g = js "JD Relevance" /\ 20 < gap g
                 /\ (severity g = sev_critical <-> 40 < gap g))
                \/ (metric g = js "Flow Continuity" /\ 15 < gap g
                    /\ (severity g = sev_critical <-> 35 < gap g))))
         (performanceGaps (generateTrainingRecommendations inp)).
Proof.
  rewrite performanceGaps_sections, jd_gaps, flow_gaps.
  apply Forall_app. split.
  - destruct (jd_overallScore inp) as [s|]; [|constructor].
    destruct (Qltb s 60) eqn:E; [apply Qltb_lt in E|constructor].
    constructor; [|constructor]. cbn [gap targetScore currentScore severity metric].
    split; [reflexivity|].
    destruct (Qltb s 40) eqn:E4; [apply Qltb_lt in E4 | apply Qltb_ge in E4];
      (split; [discriminate|]); left;
      (split; [reflexivity|]); (split; [lra|]);
      (split; [intros; lra || discriminate | intros; reflexivity || lra]).
  - destruct (flow_continuityScore inp) as [s|]; [|constructor].
    destruct (Qltb s 70) eqn:E; [apply Qltb_lt in E|constructor].
    constructor; [|constructor]. cbn [gap targetScore currentScore severity metric].
    split; [reflexivity|].
    destruct (Qltb s 50) eqn:E4; [apply Qltb_lt in E4 | apply Qltb_ge in E4];
      (split; [discriminate|]); right;
      (split; [reflexivity|]); (split; [lra|]);
      (split; [intros; lra || discriminate | intros; reflexivity || lra]).
Qed.

Lemma strengths_sections inp :
  (jd_section inp).2
  = match jd_overallScore inp with
    | Some s => if Qltb s 60 then []
                else if Qgeb s 80 then [js "Strong job description alignment"]
                else []
    | None => []
    end
  /\ (flow_section inp).2
     = match flow_continuityScore inp with
       | Some s => if Qltb s 70 then []
                   else if Qgeb s 85
                        then [js "Excellent conversation flow and continuity"]
                        else []
       | None => []
       end.
Proof.
  unfold jd_section, flow_section. split.
  - destruct (jd_overallScore inp) as [s|]; [|reflexivity].
    destruct (Qltb s 60); [reflexivity|]. now destruct (Qgeb s 80).
  - destruct (flow_continuityScore inp) as [s|]; [|reflexivity].
    destruct (Qltb s 70); [reflexivity|]. now destruct (Qgeb s 85).
Qed.

(** A metric is listed as a strength exactly when its score is present and
    at least 80 (relevance) or 85 (continuity); a metric with a strength has
    no gap entry. *)
Theorem strengths_exclude_gaps inp :
  let out := generateTrainingRecommendations inp in
  (has_strength (js "Strong job description alignment") out = true
   <-> exists s, jd_overallScore inp = Some s /\ 80 <= s)
  /\ (has_strength (js "Excellent conversation flow and continuity") out = true
      <-> exists s, flow_continuityScore inp = Some s /\ 85 <= s)
  /\ (has_strength (js "Strong job description alignment") out = true ->
      has_gap (js "JD Relevance") out = false)
  /\ (has_strength (js "Excellent conversation flow and continuity") out = true ->
      has_gap (js "Flow Continuity") out = false).
Proof.
  cbv zeta. unfold has_strength, has_gap.
  destruct (output_sections inp) as (_ & -> & _).
  destruct (strengths_sections inp) as [-> ->].
  rewrite performanceGaps_sections, jd_gaps, flow_gaps.
  destruct (jd_overallScore inp) as [s1|];
    [destruct (Qltb s1 60) eqn:E1;
       [apply Qltb_lt in E1
       | apply Qltb_ge in E1; destruct (Qgeb s1 80) eqn:G1;
           [apply Qgeb_ge in G1 | apply Qgeb_lt in G1]]|];
    (destruct (flow_continuityScore inp) as [s2|];
       [destruct (Qltb s2 70) eqn:E2;
          [apply Qltb_lt in E2
          | apply Qltb_ge in E2; destruct (Qgeb s2 85) eqn:G2;
              [apply Qgeb_ge in G2 | apply Qgeb_lt in G2]]|]);
    cbn [app existsb];
    repeat split;
    try (intros H; discriminate H);
    try (intros _; reflexivity);
    try (intros _; eexists; split; [reflexivity | assumption]);
    try (intros (s & Hs & Hge); try discriminate Hs; injection Hs as <-; lra).
Qed.

Lemma recommendation_sections inp :
  (jd_section inp).1.1
  = match (jd_section inp).1.2 with
    | [] => []
    | g :: _ =>
        [{| area := js "Job Description Alignment";
            priority := match severity g with
                        | sev_critical => critical
                        | _ => high
                        end;
            issue := js "Questions are not well-aligned with job requirements";
            recommendation := js "Study the job description thoroughly before interviews and prepare targeted questions for each requirement";
            resources := [js "JD Analysis Training Module";
                          js "Competency-Based Interviewing Guide";
                          js "Technical Skills Assessment Framework"];
            expectedImprovement := js "Increase JD relevance score by 20-30 points" |}]
    end
  /\ (flow_section inp).1.1
     = match (flow_section inp).1.2 with
       | [] => []
       | g :: _ =>
           [{| area := js "Conversation Flow";
               priority := match severity g with
                           | sev_critical => critical
                           | _ => high
                           end;
               issue := js "Questions lack logical flow and follow-up";
               recommendation := js "Practice active listening and ask follow-up questions based on candidate responses. Build a narrative thread throughout the interview";
               resources := [js "Active Listening Techniques";
                             js "Follow-up Question Framework";
                             js "Interview Flow Best Practices"];
               expectedImprovement := js "Improve flow continuity by 15-20 points" |}]
       end.
Proof.
  unfold jd_section, flow_section. split.
  - destruct (jd_overallScore inp) as [s|]; [|reflexivity].
    destruct (Qltb s 60); [|now destruct (Qgeb s 80)].
    cbn [fst snd severity]. now destruct (Qltb s 40).
  - destruct (flow_continuityScore inp) as [s|]; [|reflexivity].
    destruct (Qltb s 70); [|now destruct (Qgeb s 85)].
    cbn [fst snd severity]. now destruct (Qltb s 50).
Qed.

(** Every gap entry comes with a recommendation for its area, whose
    priority is critical when the gap is critical and high otherwise;
    besides these there are at most two recommendations (follow-up questions
    and interview tone). *)
Theorem recommendations_cover_gaps inp :
  let out := generateTrainingRecommendations inp in
  has_recommendation (js "Job Description Alignment") out
  = has_gap (js "JD Relevance") out
  /\ has_recommendation (js "Conversation Flow") out
     = has_gap (js "Flow Continuity") out
  /\ (length (performanceGaps out) <= length (recommendations out)
      <= length (performanceGaps out) + 2)%nat
  /\ Forall (fun g =>
               exists r, r ∈ recommendations out
                 /\ (priority r = critical <-> severity g = sev_critical)
                 /\ (priority r = high <-> severity g = moderate)
                 /\ (area r = js "Job Description Alignment"
                        /\ metric g = js "JD Relevance"
                     \/ area r = js "Conversation Flow"
                        /\ metric g = js "Flow Continuity"))
            (performanceGaps out).
Proof.
  cbv zeta. unfold has_recommendation, has_gap.
  destruct (output_sections inp) as (-> & _ & _).
  destruct (recommendation_sections inp) as [-> ->].
  rewrite performanceGaps_sections, jd_gaps, flow_gaps.
  assert (Hm : (length (missed_section inp) <= 1)%nat
               /\ existsb (fun r => eqb (area r) (js "Job Description Alignment"))
                    (missed_section inp) = false
               /\ existsb (fun r => eqb (area r) (js "Conversation Flow"))
                    (missed_section inp) = false).
  { unfold missed_section. destruct (missed_length inp) as [n|];
      [destruct (3 <? n)%nat|]; repeat split; cbn [length]; lia. }
  assert (Hs : (length (sentiment_section inp) <= 1)%nat
               /\ existsb (fun r => eqb (area r) (js "Job Description Alignment"))
                    (sentiment_section inp) = false
               /\ existsb (fun r => eqb (area r) (js "Conversation Flow"))
                    (sentiment_section inp) = false).
  { unfold sentiment_section. destruct (recruiter_overallScore inp) as [x|];
      [destruct (Qltb (x * 10) 60)|]; repeat split; cbn [length]; lia. }
  destruct Hm as (Hm1 & Hm2 & Hm3). destruct Hs as (Hs1 & Hs2 & Hs3).
  rewrite !existsb_app, Hm2, Hm3, Hs2, Hs3, !length_app.
  destruct (jd_overallScore inp) as [s1|];
    [destruct (Qltb s1 60); [destruct (Qltb s1 40)|]|];
    (destruct (flow_continuityScore inp) as [s2|];
       [destruct (Qltb s2 70); [destruct (Qltb s2 50)|]|]);
    cbn [app length existsb severity];
    (split; [reflexivity|]); (split; [reflexivity|]); (split; [lia|]);
    repeat (apply Forall_cons;
            [first
               [ solve [eexists; split; [apply list_elem_of_here|];
                        cbn [priority area metric severity];
                        repeat split; intros; try discriminate; auto]
               | solve [eexists; split;
                          [apply list_elem_of_further, list_elem_of_here|];
                        cbn [priority area metric severity];
                        repeat split; intros; try discriminate; auto] ] |]);
    apply Forall_nil.
Qed.

(** With scores within their scales, a critical gap rules out the rating
    excellent. *)
Theorem critical_gap_not_excellent inp :
  within_scales inp ->
  Exists (fun g => severity g = sev_critical)
         (performanceGaps (generateTrainingRecommendations inp)) ->
  overallRating (generateTrainingRecommendations inp) <> excellent.
Proof.
  intros (H1 & H2 & H3) Hex.
  rewrite performanceGaps_sections, jd_gaps, flow_gaps in Hex.
  assert (Hm : mean_score inp < 85).
  { unfold mean_score. apply Qlt_shift_div_r; [lra|].
    apply Exists_app in Hex as [Hex|Hex].
    - destruct (jd_overallScore inp) as [s|]; [|inversion Hex].
      destruct (Qltb s 60); [|inversion Hex].
      apply Exists_cons in Hex as [Hex|Hex]; [|inversion Hex].
      cbn [severity] in Hex.
      destruct (Qltb s 40) eqn:E; [apply Qltb_lt in E | discriminate].
      cbn [or_zero default from_option id] in *. lra.
    - destruct (flow_continuityScore inp) as [s|]; [|inversion Hex].
      destruct (Qltb s 70); [|inversion Hex].
      apply Exists_cons in Hex as [Hex|Hex]; [|inversion Hex].
      cbn [severity] in Hex.
      destruct (Qltb s 50) eqn:E; [apply Qltb_lt in E | discriminate].
      cbn [or_zero default from_option id] in *. lra. }
  intros Hexc.
  destruct (rating_rank_spec inp) as [[? Hr]|[[? Hr]|[[? Hr]|[? Hr]]]];
    rewrite Hexc in Hr; cbn in Hr; lia || lra.
Qed.

Lemma critical_gap_not_excellent_witness :
  let inp := {| jd_overallScore := Some 35; flow_continuityScore := Some 100;
                recruiter_overallScore := Some 10; missed_length := Some 0%nat |} in
  within_scales inp
  /\ Exists (fun g => severity g = sev_critical)
            (performanceGaps (generateTrainingRecommendations inp))
  /\ overallRating (generateTrainingRecommendations inp) <> excellent.
Proof.
  intros inp.
  assert (H1 : within_scales inp) by (unfold within_scales; cbn; lra).
  assert (H2 : Exists (fun g => severity g = sev_critical)
                 (performanceGaps (generateTrainingRecommendations inp)))
    by (apply Exists_cons; left; reflexivity).
  split; [exact H1|]. split; [exact H2|].
  exact (critical_gap_not_excellent inp H1 H2).
Defined.

End RatingProps.

(** ** Question-answer pairs *)

Module PairsProps.
Import Pairs PairsSpec.

Section Extraction.
Variable toLowerCase : jsstring -> jsstring.

Lemma pair_step_at segments pairs i :
  pair_step toLowerCase segments pairs i
  = pairs ++ pair_at toLowerCase segments i.
Proof.
  unfold pair_step, pair_at.
  destruct (segments !! i) as [c|]; [|now rewrite app_nil_r].
  destruct (segments !! (i + 1)) as [n|]; [|now rewrite app_nil_r].
  destruct (_ && _); [reflexivity | now rewrite app_nil_r].
Qed.

Lemma pair_fold segments n : forall k pairs,
  foldl (pair_step toLowerCase segments) pairs (seq k n)
  = pairs ++ concat (pair_at toLowerCase segments <$> seq k n).
Proof.
  induction n as [|n IH]; intros k pairs.
  - cbn. now rewrite app_nil_r.
  - cbn [seq foldl fmap list_fmap concat].
    rewrite IH, pair_step_at, <- app_assoc. reflexivity.
Qed.

Lemma pairs_concat segments :
  extractQuestionAnswerPairs toLowerCase segments
  = concat (pair_at toLowerCase segments <$> seq 0 (length segments - 1)).
Proof. unfold extractQuestionAnswerPairs. now rewrite pair_fold. Qed.

Lemma pair_at_length segments i : length (pair_at toLowerCase segments i) <= 1.
Proof.
  unfold pair_at. destruct (segments !! i); [|cbn; lia].
  destruct (segments !! (i + 1)); [|cbn; lia].
  destruct (_ && _); cbn; lia.
Qed.

Lemma concat_length_le {A} (f : nat -> list A) l :
  (forall i, length (f i) <= 1) -> length (concat (f <$> l)) <= length l.
Proof.
  intros Hf. induction l as [|i l IH]; [cbn; lia|].
  cbn [fmap list_fmap concat length]. rewrite length_app.
  specialize (Hf i). lia.
Qed.

(** Every extracted pair joins two consecutive segments of different
    speakers, the earlier one as the question; there are fewer pairs than
    segments. *)
Theorem pairs_are_adjacent_turns segments :
  let pairs := extractQuestionAnswerPairs toLowerCase segments in
  length pairs <= length segments - 1
  /\ Forall (fun p =>
               questionSpeaker p <> answerSpeaker p
               /\ exists i current next,
                    segments !! i = Some current
                    /\ segments !! (i + 1) = Some next
                    /\ p = pair_of current next)
            pairs.
Proof.
  cbv zeta. rewrite pairs_concat. split.
  - etransitivity; [apply concat_length_le, pair_at_length|].
    now rewrite length_seq.
  - apply Forall_forall. intros p Hp.
    apply in_concat in Hp as (l & Hl & Hp).
    rewrite <- list_elem_of_In in Hp. rewrite <- list_elem_of_In in Hl.
    apply list_elem_of_fmap in Hl as (i & -> & _).
    unfold pair_at in Hp.
    destruct (segments !! i) as [c|] eqn:Ec; [|now apply elem_of_nil in Hp].
    destruct (segments !! (i + 1)) as [n|] eqn:En; [|now apply elem_of_nil in Hp].
    destruct (negb (eqb (speaker c) (speaker n))) eqn:Esp;
      [|now apply elem_of_nil in Hp].
    destruct (looks_like_question toLowerCase (text c));
      [|now apply elem_of_nil in Hp].
    apply list_elem_of_singleton in Hp. subst p. split.
    + cbn. apply negb_true_iff in Esp. unfold eqb in Esp.
      now apply bool_decide_eq_false_1 in Esp.
    + exists i, c, n. auto.
Qed.

(** A segment with a question mark, followed by a segment of another
    speaker, always yields a pair, whoever asks. *)
Theorem question_mark_yields_pair segments i current next :
  segments !! i = Some current ->
  segments !! (i + 1) = Some next ->
  speaker current <> speaker next ->
  includes (text current) (js "?") = true ->
  pair_of current next ∈ extractQuestionAnswerPairs toLowerCase segments.
Proof.
  intros Hc Hn Hsp Hq. rewrite pairs_concat.
  rewrite list_elem_of_In. apply in_concat. exists [pair_of current next].
  split; [|now left].
  rewrite <- list_elem_of_In. apply list_elem_of_fmap. exists i. split.
  - unfold pair_at. rewrite Hc, Hn. unfold eqb.
    rewrite bool_decide_eq_false_2 by assumption.
    unfold looks_like_question. rewrite Hq. reflexivity.
  - apply elem_of_seq. apply lookup_lt_Some in Hn. lia.
Qed.

(** A transcript with a single speaker yields no pair. *)
Theorem monologue_yields_no_pair segments sp :
  Forall (fun seg => speaker seg = sp) segments ->
  extractQuestionAnswerPairs toLowerCase segments = [].
Proof.
  intros Hall. rewrite pairs_concat. rewrite Forall_forall in Hall.
  assert (Hnone : forall i, pair_at toLowerCase segments i = []).
  { intros i. unfold pair_at.
    destruct (segments !! i) as [c|] eqn:Ec; [|reflexivity].
    destruct (segments !! (i + 1)) as [n|] eqn:En; [|reflexivity].
    rewrite (Hall c), (Hall n).
    - unfold eqb. now rewrite bool_decide_eq_true_2.
    - apply list_elem_of_In. eapply list_elem_of_lookup_2. exact En.
    - apply list_elem_of_In. eapply list_elem_of_lookup_2. exact Ec. }
  induction (seq 0 (length segments - 1)) as [|i l IH]; [reflexivity|].
  cbn [fmap list_fmap concat]. now rewrite Hnone.
Qed.

End Extraction.

Lemma question_mark_yields_pair_witness :
  exists current next,
    dialogue !! 1 = Some current /\ dialogue !! (1 + 1) = Some next
    /\ speaker current <> speaker next
    /\ includes (text current) (js "?") = true
    /\ pair_of current next ∈ extractQuestionAnswerPairs ascii_toLowerCase dialogue.
Proof.
  eexists _, _.
  assert (H1 : dialogue !! 1 = Some {| speaker := js "Candidate";
                 text := js "Yes. Which office would it be?" |}) by reflexivity.
  assert (H2 : dialogue !! (1 + 1) = Some {| speaker := js "Recruiter";
                 text := js "Pune." |}) by reflexivity.
  split; [exact H1|]. split; [exact H2|].
  assert (H3 : js "Candidate" <> js "Recruiter") by (vm_compute; discriminate).
  assert (H4 : includes (js "Yes. Which office would it be?") (js "?") = true)
    by (vm_compute; reflexivity).
  split; [exact H3|]. split; [exact H4|].
  exact (question_mark_yields_pair ascii_toLowerCase dialogue 1 _ _ H1 H2 H3 H4).
Defined.

Lemma monologue_yields_no_pair_witness :
  let segments := [{| speaker := js "Speaker"; text := js "What is a monad?" |};
                   {| speaker := js "Speaker"; text := js "Let me explain." |}] in
  Forall (fun seg => speaker seg = js "Speaker") segments
  /\ extractQuestionAnswerPairs ascii_toLowerCase segments = [].
Proof.
  intros segments.
  assert (H : Forall (fun seg => speaker seg = js "Speaker") segments)
    by (repeat constructor).
  split; [exact H|].
  exact (monologue_yields_no_pair ascii_toLowerCase segments (js "Speaker") H).
Defined.

End PairsProps.

(** ** Per-pair sentiment and its aggregation *)

Module SignalProps.
Import Sentiment SentimentSpec SignalSpec NumProps SentimentProps.
Local Open Scope Q_scope.


Lemma clamp_id lo hi x :
  lo <= x -> x <= hi -> Math_max lo (Math_min hi x) == x.
Proof.
  intros Hlo Hhi.
  destruct (Math_min_spec hi x) as [[? ->]|[? ->]];
    match goal with |- context [Math_max ?a ?b] =>
      destruct (Math_max_spec a b) as [[? ->]|[? ->]] end; lra.
Qed.


Lemma or_default_nonzero x d : ~ x == 0 -> FlowGraph.or_default (Some x) d = x.
Proof.
  intros Hx. unfold FlowGraph.or_default.
  destruct (Qeq_bool x 0) eqn:E; [|reflexivity].
  apply Qeq_bool_iff in E. contradiction.
Qed.

(** A parsed sentiment whose fields are all present, non-zero and inside
    the ranges passes through unchanged. *)
Theorem normalize_keeps_in_range raw s :
  in_range raw s ->
  positive (normalize raw) == positive s
  /\ neutral (normalize raw) == neutral s
  /\ negative (normalize raw) == negative s
  /\ overallScore (normalize raw) == overallScore s
  /\ reasoning (normalize raw) = reasoning s.
Proof.
  intros (Ep & En & Eg & Es & Er & Hp & Hn & Hg & Hs & Hr).
  unfold normalize. cbn [positive neutral negative overallScore reasoning].
  rewrite Ep, En, Eg, Es, Er.
  rewrite !or_default_nonzero by lra.
  repeat split; try (apply clamp_id; lra).
  unfold str_or_default. destruct (reasoning s); [congruence | reflexivity].
Qed.

Lemma normalize_keeps_in_range_witness :
  let s := judgment 0.6 0.3 0.1 7 in
  let raw := {| r_positive := Some 0.6; r_neutral := Some 0.3;
                r_negative := Some 0.1; r_overallScore := Some 7;
                r_reasoning := Some (reasoning s) |} in
  in_range raw s /\ positive (normalize raw) == positive s.
Proof.
  intros s raw.
  assert (H : in_range raw s).
  { unfold in_range. repeat split; try reflexivity; try (cbn; lra).
    discriminate. }
  split; [exact H|].
  exact (proj1 (normalize_keeps_in_range raw s H)).
Defined.












Lemma floor_bounds y :
  inject_Z (Qfloor y) <= y /\ y < inject_Z (Qfloor y) + 1.
Proof.
  split; [apply Qfloor_le|].
  pose proof (Qlt_floor y) as H. rewrite inject_Z_plus in H. exact H.
Qed.

(** With a strong positive signal and no strong negative one, the merged
    score is strictly above the mean score (unless that is 10 already),
    by at most one point. *)
Theorem positive_signal_raises_score role pairs :
  pairs <> [] ->
  hasStrongPositive (sample_of role <$> pairs) = true ->
  hasStrongNegative (sample_of role <$> pairs) = false ->
  mean overallScore (sample_of role <$> pairs) < 10 ->
  let merged := merged_of role (aggregatePairSentiments pairs) in
  mean overallScore (sample_of role <$> pairs) < overallScore merged
  /\ overallScore merged <= mean overallScore (sample_of role <$> pairs) + 1.
Proof.
  intros Hne Epos Eneg Hlt. cbv zeta.
  rewrite aggregate_role by assumption.
  set (l := sample_of role <$> pairs) in *.
  pose proof (aggregateRole_amplified l) as Ha.
  unfold amplified in Ha. cbv zeta in Ha. rewrite Epos, Eneg in Ha.
  cbn [andb negb] in Ha.
  pose proof (avg_mean overallScore l) as ES.
  set (S := sum_of overallScore l / _) in *.
  destruct (Qgtb _ 0); destruct Ha as [-> _]; unfold Math_round;
    destruct (floor_bounds (S + 0.5 + 0.5)) as [Hlo Hhi];
    destruct (Math_min_spec 10 (inject_Z (Qfloor (S + 0.5 + 0.5))))
      as [[? ->]|[? ->]]; lra.
Qed.

Lemma positive_signal_raises_score_witness :
  let pairs := [both_roles (judgment 0.7 0.2 0.1 8);
                both_roles (judgment 0.4 0.5 0.1 6)] in
  let merged := merged_of Candidate (aggregatePairSentiments pairs) in
  pairs <> []
  /\ hasStrongPositive (sample_of Candidate <$> pairs) = true
  /\ hasStrongNegative (sample_of Candidate <$> pairs) = false
  /\ mean overallScore (sample_of Candidate <$> pairs) < 10
  /\ mean overallScore (sample_of Candidate <$> pairs) < overallScore merged.
Proof.
  intros pairs merged.
  assert (Hne : pairs <> []) by discriminate.
  assert (Hp : hasStrongPositive (sample_of Candidate <$> pairs) = true)
    by (vm_compute; reflexivity).
  assert (Hn : hasStrongNegative (sample_of Candidate <$> pairs) = false)
    by (vm_compute; reflexivity).
  assert (Hlt : mean overallScore (sample_of Candidate <$> pairs) < 10)
    by (apply Qltb_lt; vm_compute; reflexivity).
  split; [exact Hne|]. split; [exact Hp|]. split; [exact Hn|]. split; [exact Hlt|].
  exact (proj1 (positive_signal_raises_score Candidate pairs Hne Hp Hn Hlt)).
Defined.

(** With a strong negative signal and no strong positive one, the merged
    score is the mean score rounded down: never above a mean of at least 1,
    and less than one point below it. *)
Theorem negative_signal_rounds_score_down role pairs :
  pairs <> [] ->
  hasStrongNegative (sample_of role <$> pairs) = true ->
  hasStrongPositive (sample_of role <$> pairs) = false ->
  1 <= mean overallScore (sample_of role <$> pairs) ->
  let merged := merged_of role (aggregatePairSentiments pairs) in
  overallScore merged <= mean overallScore (sample_of role <$> pairs)
  /\ mean overallScore (sample_of role <$> pairs) - 1 < overallScore merged.
Proof.
  intros Hne Eneg Epos Hge. cbv zeta.
  rewrite aggregate_role by assumption.
  set (l := sample_of role <$> pairs) in *.
  pose proof (aggregateRole_amplified l) as Ha.
  unfold amplified in Ha. cbv zeta in Ha. rewrite Epos, Eneg in Ha.
  cbn [andb negb] in Ha.
  pose proof (avg_mean overallScore l) as ES.
  set (S := sum_of overallScore l / _) in *.
  destruct (Qgtb _ 0); destruct Ha as [-> _]; unfold Math_round;
    destruct (floor_bounds (S - 0.5 + 0.5)) as [Hlo Hhi];
    destruct (Math_max_spec 1 (inject_Z (Qfloor (S - 0.5 + 0.5))))
      as [[? ->]|[? ->]]; lra.
Qed.

Lemma negative_signal_rounds_score_down_witness :
  let pairs := [both_roles (judgment 0.1 0.3 0.6 3);
                both_roles (judgment 0.2 0.5 0.3 5)] in
  let merged := merged_of Candidate (aggregatePairSentiments pairs) in
  pairs <> []
  /\ hasStrongNegative (sample_of Candidate <$> pairs) = true
  /\ hasStrongPositive (sample_of Candidate <$> pairs) = false
  /\ 1 <= mean overallScore (sample_of Candidate <$> pairs)
  /\ overallScore merged <= mean overallScore (sample_of Candidate <$> pairs).
Proof.
  intros pairs merged.
  assert (Hne : pairs <> []) by discriminate.
  assert (Hn : hasStrongNegative (sample_of Candidate <$> pairs) = true)
    by (vm_compute; reflexivity).
  assert (Hp : hasStrongPositive (sample_of Candidate <$> pairs) = false)
    by (vm_compute; reflexivity).
  assert (Hge : 1 <= mean overallScore (sample_of Candidate <$> pairs))
    by (apply Qle_bool_iff; vm_compute; reflexivity).
  split; [exact Hne|]. split; [exact Hn|]. split; [exact Hp|]. split; [exact Hge|].
  exact (proj1 (negative_signal_rounds_score_down Candidate pairs Hne Hn Hp Hge)).
Defined.

End SignalProps.

(** ** The extracted span *)

Module SpanProps.
Import Extract Json ExtractSpec SpanSpec ExtractProps.

Lemma replace_all_skip m s : forall k,
  replace_all m k s = replace_all m 0 (drop k s).
Proof.
  induction s as [|c s IH]; intros [|k]; try reflexivity.
  cbn [replace_all drop]. apply IH.
Qed.

Lemma starts_with_fence_lead s : starts_with fence s = (3 <=? lead s).
Proof.
  unfold fence.
  destruct s as [|a [|b [|c s]]]; cbn [starts_with lead];
    repeat match goal with
           | |- context [(BACKTICK =? ?x)%N] => destruct (BACKTICK =? x)%N
           end;
    reflexivity.
Qed.

Lemma replace_fence_inv n : forall s,
  length s <= n ->
  let r := replace_all match_fence 0 s in
  includes r fence = false /\ lead r <= 2 /\ (lead s <= 2 -> lead r = lead s).
Proof.
  induction n as [|n IH]; intros s Hlen; cbv zeta.
  - destruct s; [|cbn in Hlen; lia]. cbn. repeat split; lia.
  - destruct s as [|c s]; [cbn; repeat split; lia|].
    cbn [length] in Hlen. cbn [replace_all]. unfold match_fence.
    destruct (starts_with fence (c :: s)) eqn:E; fold match_fence.
    + rewrite replace_all_skip.
      destruct (IH (drop 2 s)) as (Hi & Hl & _); [rewrite length_drop; lia|].
      repeat split; [exact Hi | exact Hl |].
      rewrite starts_with_fence_lead in E. apply Nat.leb_le in E. lia.
    + destruct (IH s) as (Hi & Hl & He); [lia|].
      rewrite starts_with_fence_lead in E. apply Nat.leb_gt in E.
      assert (Hc : lead (c :: replace_all match_fence 0 s) = lead (c :: s)).
      { cbn [lead] in E |- *. destruct (BACKTICK =? c)%N; [|reflexivity].
        rewrite He by lia. reflexivity. }
      repeat split; [| lia | intros _; exact Hc].
      cbn [includes]. rewrite Hi, starts_with_fence_lead, orb_false_r.
      apply Nat.leb_gt. lia.
Qed.

(** After fence stripping no run of three backticks is left. *)
Theorem strip_fences_removes_fences s :
  includes (strip_fences s) fence = false.
Proof.
  unfold strip_fences.
  exact (proj1 (replace_fence_inv _ _ (Nat.le_refl _))).
Qed.

Lemma replace_all_id m s :
  fence_led m -> no_backtick s = true -> replace_all m 0 s = s.
Proof.
  intros Hm Hs. pose proof (replace_all_no_backtick m s [] Hm Hs) as H.
  now rewrite !app_nil_r in H.
Qed.

(** Text without a backtick is left as it is. *)
Lemma strip_fences_id s : no_backtick s = true -> strip_fences s = s.
Proof.
  intros Hs. unfold strip_fences.
  rewrite (replace_all_id match_fence_open) by auto using fence_led_open.
  apply replace_all_id; auto using fence_led_plain.
Qed.

Lemma jsonStart_cons d s :
  jsonStart (d :: s) = if is_opener d then Some 0 else S <$> jsonStart s.
Proof.
  unfold jsonStart, is_opener. cbn [index_of].
  destruct (d =? LBRACE)%N, (d =? LBRACKET)%N; cbn [orb];
    destruct (index_of LBRACE s), (index_of LBRACKET s); cbn; try reflexivity.
Qed.

Lemma jsonStart_split s : forall n,
  jsonStart s = Some n ->
  exists pre sc rest,
    s = pre ++ sc :: rest /\ length pre = n
    /\ no_opener pre = true /\ is_opener sc = true.
Proof.
  induction s as [|d s IH]; intros n H; [discriminate|].
  rewrite jsonStart_cons in H. destruct (is_opener d) eqn:Ed.
  - injection H as <-. exists [], d, s. auto.
  - destruct (jsonStart s) as [m|]; [|discriminate]. injection H as <-.
    destruct (IH m eq_refl) as (pre & sc & rest & -> & <- & Hpre & Hsc).
    exists (d :: pre), sc, rest. repeat split; [|exact Hsc].
    unfold no_opener in *. cbn [forallb]. now rewrite Ed, Hpre.
Qed.

Lemma scan_returns_closer sc ec s : forall d inS esc i j,
  scan sc ec d inS esc i s = Some j ->
  exists k, j = i + k /\ s !! k = Some ec.
Proof.
  induction s as [|c s IH]; intros d inS esc i j H; [discriminate|].
  cbn [scan] in H.
  assert (Hnext : forall d' inS' esc',
            scan sc ec d' inS' esc' (S i) s = Some j ->
            exists k, j = i + k /\ (c :: s) !! k = Some ec).
  { intros d' inS' esc' H'. destruct (IH _ _ _ _ _ H') as (k & -> & Hk).
    exists (S k). split; [lia | exact Hk]. }
  destruct esc; [eapply Hnext; exact H|].
  destruct (c =? BACKSLASH)%N; [eapply Hnext; exact H|].
  destruct (c =? DQUOTE)%N; [eapply Hnext; exact H|].
  destruct inS; [eapply Hnext; exact H|].
  destruct (c =? sc)%N; [eapply Hnext; exact H|].
  destruct (c =? ec)%N eqn:Ec; [|eapply Hnext; exact H].
  destruct (d - 1 =? 0)%Z; [|eapply Hnext; exact H].
  injection H as <-. apply N.eqb_eq in Ec. subst c.
  exists 0. split; [lia | reflexivity].
Qed.

Lemma literal_shape X :
  json_literal X = true ->
  exists sc b, X = sc :: b ++ [closer_of sc] /\ is_opener sc = true.
Proof.
  unfold json_literal. destruct X as [|sc X']; [discriminate|].
  intros H. apply andb_true_iff in H as [Hop Hparse].
  apply bool_decide_eq_true_1 in Hparse. apply parse_sound in Hparse.
  cbn [sound] in Hparse. destruct Hparse as [_ Hshape].
  destruct (Hshape sc X' eq_refl Hop) as (b & -> & _).
  exists sc, b. auto.
Qed.

Lemma trim_start_head s :
  trim_start s = [] \/ exists c r, trim_start s = c :: r /\ is_space c = false.
Proof.
  induction s as [|c s IH]; [now left|]. cbn [trim_start].
  destruct (is_space c) eqn:E; [exact IH|]. right. eauto.
Qed.

Lemma trim_start_fixed s :
  (s = [] \/ exists c r, s = c :: r /\ is_space c = false) -> trim_start s = s.
Proof.
  intros [-> | (c & r & -> & Hc)]; [reflexivity|].
  cbn [trim_start]. now rewrite Hc.
Qed.

Lemma trim_start_idem s : trim_start (trim_start s) = trim_start s.
Proof. apply trim_start_fixed, trim_start_head. Qed.

Lemma trim_end_idem s : trim_end (trim_end s) = trim_end s.
Proof.
  unfold trim_end. now rewrite reverse_involutive, trim_start_idem.
Qed.

Lemma trim_idem s : trim (trim s) = trim s.
Proof.
  unfold trim. destruct (trim_start_head s) as [-> | (c & r & -> & Hc)];
    [reflexivity|].
  pose proof (trim_end_app [] c r Hc) as E1.
  pose proof (trim_end_app [] c (trim_end r) Hc) as E2.
  cbn [app] in E1, E2. rewrite E1. cbn [trim_start]. rewrite Hc, E2.
  now rewrite trim_end_idem.
Qed.

Lemma forallb_reverse (P : N -> bool) s : forallb P (reverse s) = forallb P s.
Proof.
  induction s as [|c s IH]; [reflexivity|].
  rewrite reverse_cons, forallb_app, IH. cbn [forallb].
  rewrite andb_true_r. apply andb_comm.
Qed.

Lemma forallb_trim (P : N -> bool) s :
  forallb P s = true -> forallb P (trim s) = true.
Proof.
  intros H. unfold trim, trim_end.
  rewrite forallb_reverse. apply forallb_trim_start.
  rewrite forallb_reverse. now apply forallb_trim_start.
Qed.

Section Span.
Variable JSON_parse_ok : jsstring -> bool.

(** A well-formed object or array literal that stands unfenced between two
    stretches of prose, in a text without backticks and with no brace or
    bracket before the literal, is returned exactly, when the text does not
    parse as a whole. *)
Theorem extract_unfenced_literal before after X :
  json_literal X = true ->
  no_opener before = true ->
  no_backtick (before ++ X ++ after) = true ->
  JSON_parse_ok (trim (strip_bom (before ++ X ++ after))) = false ->
  extractValidJson JSON_parse_ok (before ++ X ++ after) = Returned X.
Proof.
  intros HX Hop Hbt Hp. unfold extractValidJson. rewrite Hp.
  assert (Hbt' : no_backtick (trim (strip_bom (before ++ X ++ after))) = true)
    by (apply forallb_trim, forallb_strip_bom; exact Hbt).
  rewrite (strip_fences_id _ Hbt'), trim_idem, Hp. clear Hp Hbt Hbt'.
  destruct (literal_shape X HX) as (sc & b & EX & Hsc).
  destruct (opener_cases sc Hsc) as (Hcase & _).
  assert (Hchars : sc <> BOM /\ is_space sc = false
                   /\ is_space (closer_of sc) = false)
    by (destruct Hcase as [-> | ->]; repeat split; discriminate).
  destruct Hchars as (Hbom & Hsp & Hsp').
  set (B := trim_start (strip_bom before)).
  assert (HBop : no_opener B = true)
    by (apply forallb_trim_start, forallb_strip_bom; exact Hop).
  assert (ET : trim (strip_bom (before ++ X ++ after)) = B ++ X ++ trim_end after).
  { rewrite EX. unfold trim. cbn [app].
    rewrite strip_bom_app, trim_start_app by assumption. fold B.
    rewrite <- app_assoc. cbn [app].
    replace (B ++ sc :: b ++ closer_of sc :: after)
      with ((B ++ sc :: b) ++ closer_of sc :: after)
      by (now rewrite <- app_assoc).
    rewrite trim_end_app by assumption.
    now rewrite <- !app_assoc. }
  rewrite ET.
  destruct (scan_literal X (trim_end after) (length B) HX)
    as (sc' & X' & EX' & Hsc' & Hscan).
  rewrite EX' in Hscan |- *. cbn [app] in Hscan |- *.
  rewrite jsonStart_first by assumption.
  rewrite nth_middle, drop_app_length.
  change (if (sc' =? LBRACE)%N then RBRACE else RBRACKET) with (closer_of sc').
  rewrite Hscan. unfold substring. rewrite drop_app_length.
  replace (length B + length (sc' :: X') - 1 + 1 - length B)
    with (length (sc' :: X')) by (cbn [length]; lia).
  change (sc' :: X' ++ trim_end after) with ((sc' :: X') ++ trim_end after).
  now rewrite take_app_length.
Qed.

(** Whatever [extractValidJson] returns is either text that parses (the
    trimmed input, or the trimmed input after fence stripping), or a span
    of the fence-stripped text that starts at its first opening brace or
    bracket, ends with the matching kind of closer and has nesting depth
    zero at its end.  Nothing in the code checks that such a span parses. *)
Theorem extract_returns_span text r :
  extractValidJson JSON_parse_ok text = Returned r ->
  let cleaned := strip_fences (trim (strip_bom text)) in
  (JSON_parse_ok r = true /\ (r = trim (strip_bom text) \/ r = trim cleaned))
  \/ exists pre sc body post,
       cleaned = pre ++ r ++ post /\ no_opener pre = true
       /\ is_opener sc = true /\ r = sc :: body ++ [closer_of sc]
       /\ depth_after sc r = 0%Z.
Proof.
  unfold extractValidJson. intros H. cbv zeta.
  destruct (JSON_parse_ok (trim (strip_bom text))) eqn:E1.
  { injection H as <-. left. auto. }
  set (cleaned := strip_fences (trim (strip_bom text))) in *.
  destruct (JSON_parse_ok (trim cleaned)) eqn:E2.
  { injection H as <-. left. auto. }
  destruct (jsonStart cleaned) as [start|] eqn:Ej; [|discriminate].
  destruct (jsonStart_split _ _ Ej) as (pre & sc & rest & Ecl & <- & Hpre & Hsc).
  rewrite Ecl in H. rewrite nth_middle, drop_app_length in H.
  change (if (sc =? LBRACE)%N then RBRACE else RBRACKET) with (closer_of sc) in H.
  destruct (scan _ _ _ _ _ _ _) as [i|] eqn:Es; [|discriminate].
  injection H as <-. right.
  destruct (scan_returns_closer _ _ _ _ _ _ _ _ Es) as (k & Ei & Hk).
  destruct (scan_returns_zero _ _ _ _ _ _ _ _ Es) as (k' & _ & Ei' & Hz).
  assert (k' = k) by lia. subst k' i. clear Ei'.
  destruct (opener_cases sc Hsc) as (_ & _ & _ & Hne).
  destruct k as [|m].
  { cbn in Hk. injection Hk as Hk. rewrite <- Hk, N.eqb_refl in Hne.
    discriminate. }
  cbn [lookup list_lookup] in Hk.
  unfold substring. rewrite drop_app_length.
  replace (length pre + S m + 1 - length pre) with (S (S m)) by lia.
  cbn [take]. rewrite (take_S_r _ _ _ Hk).
  exists pre, sc, (take m rest), (drop (S m) rest).
  repeat split; [| exact Hpre | exact Hsc |].
  - rewrite Ecl. cbn [app]. rewrite <- (take_S_r _ _ _ Hk).
    now rewrite take_drop.
  - unfold depth_after. rewrite <- (take_S_r _ _ _ Hk). exact Hz.
Qed.

End Span.

Lemma extract_unfenced_literal_witness :
  let before := js "The summary is " in
  let X := literal_with_delimiters in
  let after := js " - done." in
  json_literal X = true
  /\ no_opener before = true
  /\ no_backtick (before ++ X ++ after) = true
  /\ json_text (trim (strip_bom (before ++ X ++ after))) = false
  /\ extractValidJson json_text (before ++ X ++ after) = Returned X.
Proof.
  intros before X after.
  assert (H1 : json_literal X = true) by (vm_compute; reflexivity).
  assert (H2 : no_opener before = true) by (vm_compute; reflexivity).
  assert (H3 : no_backtick (before ++ X ++ after) = true)
    by (vm_compute; reflexivity).
  assert (H4 : json_text (trim (strip_bom (before ++ X ++ after))) = false)
    by (vm_compute; reflexivity).
  split; [exact H1|]. split; [exact H2|]. split; [exact H3|]. split; [exact H4|].
  exact (extract_unfenced_literal json_text before after X H1 H2 H3 H4).
Defined.

Lemma extract_returns_span_witness :
  let text := js "Result: {a} as requested" in
  let r := js "{a}" in
  extractValidJson json_text text = Returned r
  /\ json_text r = false
  /\ exists pre sc body post,
       strip_fences (trim (strip_bom text)) = pre ++ r ++ post
       /\ no_opener pre = true /\ is_opener sc = true
       /\ r = sc :: body ++ [closer_of sc] /\ depth_after sc r = 0%Z.
Proof.
  intros text r.
  assert (H : extractValidJson json_text text = Returned r)
    by (vm_compute; reflexivity).
  assert (Hr : json_text r = false) by (vm_compute; reflexivity).
  split; [exact H|]. split; [exact Hr|].
  destruct (extract_returns_span json_text text r H) as [[Hp _] | Hspan].
  - rewrite Hr in Hp. discriminate.
  - exact Hspan.
Defined.

End SpanProps.

(** ** Missed follow-ups *)

Module DetectorProps.
Import FlowGraph FlowSpec DetectorSpec FlowProps BranchProps.

Section Detection.
Variable toLowerCase : jsstring -> jsstring.

Lemma missed_step_cases questions answers edges missed i :
  (has_skills answers i = true /\ length questions <= i + 1
   /\ missed_step toLowerCase questions answers edges missed i = Thrown TypeError)
  \/ ((has_skills answers i = true -> i + 1 < length questions)
      /\ exists missed',
           missed_step toLowerCase questions answers edges missed i
           = Returned missed').
Proof.
  unfold missed_step, has_skills.
  destruct (answers !! i) as [a|]; [|right; split; [discriminate | eauto]].
  destruct (keySkills a) as [[|skill0 rest]|].
  - right. split; [discriminate|]. cbn [bind].
    destruct (List.find _ edges) as [e|]; [destruct (bool_decide _)|]; eauto.
  - destruct (questions !! (i + 1)) as [nq|] eqn:Eq.
    + right. apply lookup_lt_Some in Eq. split; [auto|].
      destruct (existsb _ _); cbn [bind];
        (destruct (List.find _ edges) as [e|]; [destruct (bool_decide _)|]);
        eauto.
    + left. apply lookup_ge_None_1 in Eq. cbn [bind]. auto.
  - right. split; [discriminate|]. cbn [bind].
    destruct (List.find _ edges) as [e|]; [destruct (bool_decide _)|]; eauto.
Qed.

Lemma for_each_outcome questions answers edges n : forall k missed,
  match for_each (missed_step toLowerCase questions answers edges) missed (seq k n) with
  | Thrown e =>
      e = TypeError
      /\ exists i, k <= i < k + n /\ length questions <= i + 1
                   /\ has_skills answers i = true
  | Returned _ =>
      forall i, k <= i < k + n -> has_skills answers i = true ->
                i + 1 < length questions
  end.
Proof.
  induction n as [|n IH]; intros k missed.
  - cbn. intros i Hi. lia.
  - cbn [seq for_each].
    destruct (missed_step_cases questions answers edges missed k)
      as [(Hs & Hq & ->) | (Hq & missed' & ->)]; cbn [bind].
    + split; [reflexivity|]. exists k. repeat split; auto; lia.
    + specialize (IH (S k) missed').
      destruct (for_each _ missed' (seq (S k) n)) as [res|e].
      * intros i Hi Hs. destruct (decide (i = k)) as [->|Hne]; [auto|].
        apply IH; [lia | exact Hs].
      * destruct IH as (-> & i & Hi & Hlen & Hs). split; [reflexivity|].
        exists i. repeat split; auto; lia.
Qed.

(** [detectMissedFollowUps] fails exactly when an answer before the last
    carries a skill tag and there is no question after it; the failure is
    then a TypeError, and without such an answer the function returns,
    however few questions there are. *)
Theorem detect_outcome questions answers edges :
  match detectMissedFollowUps toLowerCase questions answers edges with
  | Thrown e =>
      e = TypeError
      /\ exists i, i + 1 < length answers /\ length questions <= i + 1
                   /\ has_skills answers i = true
  | Returned _ =>
      forall i, i + 1 < length answers -> has_skills answers i = true ->
                i + 1 < length questions
  end.
Proof.
  unfold detectMissedFollowUps.
  pose proof (for_each_outcome questions answers edges (length answers - 1) 0 [])
    as H.
  destruct (for_each _ [] _) as [res|e].
  - intros i Hi Hs. apply H; [lia | exact Hs].
  - destruct H as (-> & i & Hi & Hlen & Hs). split; [reflexivity|].
    exists i. repeat split; auto; lia.
Qed.

Lemma find_joins_direct i l :
  List.find (joins i) (direct_edge <$> l) = None.
Proof.
  induction l as [|j l IH]; [reflexivity|]. cbn [fmap list_fmap List.find].
  unfold joins at 1. cbn [direct_edge from]. unfold eqb at 1.
  rewrite bool_decide_eq_false_2; [exact IH|].
  intros H. symmetry in H. now apply a_id_ne_q_id in H.
Qed.

Lemma find_joins_continuity questions i n :
  List.find (joins i) (continuity_edge toLowerCase questions <$> seq 0 n)
  = if decide (i < n)
    then Some (continuity_edge toLowerCase questions i) else None.
Proof.
  induction n as [|n IH].
  - cbn. destruct (decide _); [lia | reflexivity].
  - rewrite seq_S, fmap_app, find_app, IH. cbn [Nat.add].
    destruct (decide (i < n)).
    + rewrite decide_True by lia. reflexivity.
    + cbn [fmap list_fmap List.find]. unfold joins.
      cbn [continuity_edge from to]. unfold eqb.
      destruct (decide (i = n)) as [->|Hne].
      * rewrite !bool_decide_eq_true_2 by reflexivity.
        rewrite decide_True by lia. reflexivity.
      * rewrite (bool_decide_eq_false_2 (a_id n = a_id i))
          by (intros H; apply a_id_inj in H; lia).
        rewrite decide_False by lia. reflexivity.
Qed.

Lemma edge_rule_built questions answers i :
  i + 1 < length questions ->
  edge_rule (buildFlowGraph toLowerCase questions answers).2 i
  = if (shared_long_tokens toLowerCase (text_at questions i)
                           (text_at questions (i + 1)) =? 0)%nat
    then [edge_record i] else [].
Proof.
  intros Hi. unfold edge_rule. fold (joins i).
  rewrite buildFlowGraph_edges, find_app, find_joins_direct,
    find_joins_continuity.
  rewrite decide_True by lia. cbn [continuity_edge etype].
  destruct (connection_cases toLowerCase (text_at questions i)
              (text_at questions (i + 1))) as [(Hn & -> & _)|[(Hn & -> & _)|(Hn & -> & _)]].
  - rewrite bool_decide_eq_false_2 by discriminate.
    destruct (Nat.eqb_spec (shared_long_tokens toLowerCase (text_at questions i)
                              (text_at questions (i + 1))) 0); [lia | reflexivity].
  - rewrite bool_decide_eq_false_2 by discriminate. now rewrite Hn.
  - rewrite bool_decide_eq_true_2 by reflexivity. now rewrite Hn.
Qed.

Lemma edge_record_not_tag questions answers i j :
  edge_record i ∉ tag_rule toLowerCase questions answers j.
Proof.
  unfold tag_rule. intros H.
  destruct (answers !! j) as [a|]; [|now apply elem_of_nil in H].
  destruct (keySkills a) as [[|skill0 rest]|]; try now apply elem_of_nil in H.
  destruct (existsb _ _); [now apply elem_of_nil in H|].
  apply list_elem_of_singleton in H. discriminate.
Qed.

(** On the graph that [buildFlowGraph] makes of the same questions and
    answers, [detectMissedFollowUps] reports a topic jump after answer i
    exactly when i is not the last answer and questions i and i + 1 share
    no token longer than four code units. *)
Theorem built_graph_topic_jumps questions answers :
  length answers <= length questions ->
  exists missed,
    detectMissedFollowUps toLowerCase questions answers
      (buildFlowGraph toLowerCase questions answers).2 = Returned missed
    /\ forall i,
         edge_record i ∈ missed
         <-> i + 1 < length answers
             /\ shared_long_tokens toLowerCase (text_at questions i)
                                   (text_at questions (i + 1)) = 0.
Proof.
  intros Hlen. eexists. split.
  - unfold detectMissedFollowUps. rewrite for_each_missed by lia.
    rewrite app_nil_l. reflexivity.
  - intros i. rewrite list_elem_of_In, in_concat. split.
    + intros (l & Hl & Hin). rewrite <- list_elem_of_In in Hl.
      rewrite <- list_elem_of_In in Hin.
      apply list_elem_of_fmap in Hl as (j & -> & Hj).
      apply elem_of_seq in Hj.
      apply elem_of_app in Hin as [Hin|Hin];
        [now apply edge_record_not_tag in Hin|].
      pose proof (edge_rule_after _ _ _ Hin) as Hafter.
      cbn [edge_record afterNode] in Hafter. apply a_id_inj in Hafter. subst j.
      split; [lia|].
      rewrite edge_rule_built in Hin by lia.
      destruct (Nat.eqb_spec (shared_long_tokens toLowerCase (text_at questions i)
                                (text_at questions (i + 1))) 0) as [E|E];
        [exact E | now apply elem_of_nil in Hin].
    + intros [Hi Hz].
      exists (tag_rule toLowerCase questions answers i
              ++ edge_rule (buildFlowGraph toLowerCase questions answers).2 i).
      split.
      * rewrite <- list_elem_of_In.
        apply (list_elem_of_fmap_2
                 (fun i => tag_rule toLowerCase questions answers i
                           ++ edge_rule (buildFlowGraph toLowerCase questions answers).2 i)).
        apply elem_of_seq. lia.
      * rewrite <- list_elem_of_In. apply elem_of_app. right.
        rewrite edge_rule_built by lia. rewrite Hz. now left.
Qed.

End Detection.

Lemma built_graph_topic_jumps_witness :
  length both_answers <= length both_questions
  /\ exists missed,
       detectMissedFollowUps ascii_toLowerCase both_questions both_answers
         (buildFlowGraph ascii_toLowerCase both_questions both_answers).2
       = Returned missed
       /\ forall i,
            edge_record i ∈ missed
            <-> i + 1 < length both_answers
                /\ shared_long_tokens ascii_toLowerCase (text_at both_questions i)
                                      (text_at both_questions (i + 1)) = 0.
Proof.
  assert (H : length both_answers <= length both_questions) by (cbn; lia).
  split; [exact H|].
  exact (built_graph_topic_jumps ascii_toLowerCase both_questions both_answers H).
Defined.

End DetectorProps.
